(** * RagPipeline-Classic: the document-to-chunk ingestion pipeline

    A shallow embedding of [app/ingetion.py]: text extraction
    ([extract_pages]), whitespace normalisation ([clean_text]), the chunker
    with its character-to-page map ([chunk_pages]) and the versioned record
    builder ([ingest_document]), followed by the properties the
    specification states about them.

    Conventions of the embedding:
    - a Python [str] is the list of its Unicode code points ([list N]);
    - a Python [int] is a [Z];
    - the [while] loop of [chunk_pages] is a fixpoint on a fuel counter:
      [None] means the fuel ran out, [Some r] that the loop returned [r];
    - a call that may raise returns a [result]: [Ok v] or [Raise e];
    - what the module imports from the interpreter, the operating system and
      [config.py] is a parameter: records [Platform], [World], [Config]. *)

From Stdlib Require Import ZArith Ascii String.
From stdpp Require Import base tactics option list sorting numbers pretty.

Local Open Scope Z_scope.

(** ** Characters and strings *)

Abbreviation char := N (only parsing).
Abbreviation str := (list N) (only parsing).

(** A string literal, as the list of its code points. *)
Definition lit (s : string) : str := N_of_ascii <$> list_ascii_of_string s.

Definition SPACE : char := 32%N.

(** CPython's [Py_UNICODE_ISSPACE]: the test behind [str.strip()],
    [str.isspace()] and the [\s] class of [re] on [str] patterns. *)
Definition isspace (c : char) : bool :=
  ((9 <=? c) && (c <=? 13) || (28 <=? c) && (c <=? 32)
   || (c =? 133) || (c =? 160) || (c =? 5760)
   || (8192 <=? c) && (c <=? 8202)
   || (c =? 8232) || (c =? 8233) || (c =? 8239) || (c =? 8287)
   || (c =? 12288))%N.

(** Python truthiness of a sequence: [if xs:]. *)
Definition truthy {A} (xs : list A) : bool :=
  match xs with [] => false | _ => true end.

(** [len(xs)] *)
Definition len {A} (xs : list A) : Z := Z.of_nat (length xs).

(** [str(n)] for an [int]. *)
Definition str_of_int (n : Z) : str := lit (pretty n).

(** [str.lstrip()], [str.rstrip()] and [str.strip()] with no argument. *)
Fixpoint lstrip (s : str) : str :=
  match s with
  | [] => []
  | c :: s' => if isspace c then lstrip s' else s
  end.

Definition rstrip (s : str) : str := reverse (lstrip (reverse s)).

Definition strip (s : str) : str := rstrip (lstrip s).

(** [re.sub(r"\s+", " ", text)]: every maximal run of whitespace becomes one
    space. [in_run] tells that the previous character was whitespace, so
    that the run has been replaced already. *)
Fixpoint sub_spaces (in_run : bool) (text : str) : str :=
  match text with
  | [] => []
  | c :: text' =>
      if isspace c
      then (if in_run then sub_spaces true text'
            else SPACE :: sub_spaces true text')
      else c :: sub_spaces false text'
  end.

(** Python's [xs[a:b]]: a negative index counts from the end, and both
    indices are clamped to [0 .. len(xs)]. *)
Definition adjust_index (n i : Z) : Z :=
  if i <? 0 then Z.max (i + n) 0 else Z.min i n.

Definition slice {A} (xs : list A) (a b : Z) : list A :=
  let a' := adjust_index (len xs) a in
  let b' := adjust_index (len xs) b in
  take (Z.to_nat (b' - a')) (drop (Z.to_nat a') xs).

(** [sorted(set(xs))] on integers: [set] keeps one copy of each element,
    [sorted] orders them ascending. *)
Definition set_of (xs : list Z) : list Z := remove_dups xs.
Definition sorted (xs : list Z) : list Z := merge_sort Z.le xs.

(** [sep.join(parts)] *)
Fixpoint join (sep : str) (parts : list str) : str :=
  match parts with
  | [] => []
  | [p] => p
  | p :: rest => p ++ sep ++ join sep rest
  end.

(** ** Errors *)

(** The exceptions that reach the caller of [ingest_document]: the
    [ValueError] the module raises itself, and whatever [open], [read] or
    [PdfReader] raise, kept by the name of its class. *)
Inductive exn : Type :=
  | ValueError (msg : str)
  | LibraryError (class_name : str).

Inductive result (A : Type) : Type :=
  | Ok (a : A)
  | Raise (e : exn).
Arguments Ok {A} a.
Arguments Raise {A} e.

(** An exception raised in [m] ends the computation; [x ← m; k] is stdpp's
    notation for [mbind]. *)
Global Instance result_ret : MRet result := λ A a, Ok a.
Global Instance result_bind : MBind result := λ A B k m,
  match m with
  | Ok a => k a
  | Raise e => Raise e
  end.

(** ** Data model *)

(** [{"page": ..., "text": ...}] *)
Record Page := mkPage { page : Z; text : str }.

(** [{"chunk_text": ..., "pages": ...}] *)
Record Chunk := mkChunk { chunk_text : str; pages : list Z }.

(** ** Chunking *)

Definition clean_text (text : str) : str :=
  let text := sub_spaces false text in
  strip text.

(** One iteration of [for p in pages] on the pair
    [(full_text, char_to_page)]. *)
Definition add_page (st : str * list Z) (p : Page) : str * list Z :=
  let '(full_text, char_to_page) := st in
  let cleaned := clean_text (text p) in
  if truthy cleaned then
    let '(full_text, char_to_page) :=
      if truthy full_text
      then (full_text ++ [SPACE], char_to_page ++ [page p])
      else (full_text, char_to_page) in
    (full_text ++ cleaned,
     char_to_page ++ replicate (length cleaned) (page p))
  else (full_text, char_to_page).

(** The whole [for] loop, from [full_text = ""] and [char_to_page = []]. *)
Definition build_stream (pages : list Page) : str * list Z :=
  foldl add_page ([], []) pages.

(** The [while start < len(full_text)] loop. *)
Fixpoint chunk_loop (fuel : nat) (full_text : str) (char_to_page : list Z)
    (chunk_size overlap : Z) (start : Z) (chunks : list Chunk)
    : option (list Chunk) :=
  match fuel with
  | O => None
  | S fuel' =>
      if start <? len full_text then
        let end_ := Z.min (start + chunk_size) (len full_text) in
        let chunk := strip (slice full_text start end_) in
        let chunks :=
          if truthy chunk then
            let page_set := sorted (set_of (slice char_to_page start end_)) in
            chunks ++ [mkChunk chunk page_set]
          else chunks in
        chunk_loop fuel' full_text char_to_page chunk_size overlap
          (start + (chunk_size - overlap)) chunks
      else Some chunks
  end.

Definition chunk_pages (fuel : nat) (pages : list Page)
    (chunk_size overlap : Z) : option (list Chunk) :=
  let '(full_text, char_to_page) := build_stream pages in
  chunk_loop fuel full_text char_to_page chunk_size overlap 0 [].

(** ** Text extraction *)

(** What [extract_pages] and [ingest_document] take from [os.path] and
    [str]: pure functions of the path. *)
Record Platform := mkPlatform {
  splitext : str → str * str;      (* os.path.splitext *)
  basename : str → str;            (* os.path.basename *)
  lower : str → str                (* str.lower *)
}.

(** The environment of one call: the files, the PDF decoder and the clock.
    [PdfReader path] is the outcome of opening the document, and when it
    opens, the outcome of [extract_text()] on each of [reader.pages]
    ([None] is Python's [None]). *)
Record World := mkWorld {
  PdfReader : str → result (list (result (option str)));
  read_text : str → result str;    (* open(path, "r", encoding="utf-8").read() *)
  utcnow_isoformat : str           (* datetime.utcnow().isoformat() *)
}.

(** The [for i, page in enumerate(reader.pages)] loop; [i] is the index of
    the head of [reader_pages]. *)
Fixpoint pdf_pages_loop (i : Z) (reader_pages : list (result (option str)))
    (pages : list Page) : result (list Page) :=
  match reader_pages with
  | [] => Ok pages
  | extract_text :: rest =>
      extracted ← extract_text;
      let text := default [] extracted in
      if truthy (strip text)
      then pdf_pages_loop (i + 1) rest (pages ++ [mkPage (i + 1) text])
      else pdf_pages_loop (i + 1) rest pages
  end.

Definition extract_pages_from_pdf (w : World) (file_path : str)
    : result (list Page) :=
  reader_pages ← PdfReader w file_path;
  pdf_pages_loop 0 reader_pages [].

Definition extract_pages_from_txt (w : World) (file_path : str)
    : result (list Page) :=
  content ← read_text w file_path;
  Ok [mkPage 1 content].

Definition str_eqb (a b : str) : bool := bool_decide (a = b).

Definition extract_pages (pf : Platform) (w : World) (file_path : str)
    : result (list Page) :=
  let ext := lower pf (splitext pf file_path).2 in
  if str_eqb ext (lit ".pdf") then extract_pages_from_pdf w file_path
  else if existsb (str_eqb ext) [lit ".txt"; lit ".md"]
  then extract_pages_from_txt w file_path
  else Raise (ValueError (lit "Unsupported file type: " ++ ext)).

(** ** Versioned ingestion *)

(** [from config import CHUNK_SIZE, CHUNK_OVERLAP]: [config.py] is not part
    of the sources at hand, so the two defaults are parameters. *)
Record Config := mkConfig { CHUNK_SIZE : Z; CHUNK_OVERLAP : Z }.

Record Metadata := mkMetadata {
  doc_id : str;
  doc_version : Z;
  is_active : bool;
  source : str;
  pages_str : str;                 (* the "pages" key *)
  ingested_at : str
}.

Record IngestionRecord := mkRecord {
  id : str;
  record_text : str;               (* the "chunk_text" key *)
  metadata : Metadata
}.

(** The f-string [f"{doc_id}::v{version}::chunk-{idx}"]. *)
Definition record_id (doc_id : str) (version : Z) (idx : nat) : str :=
  doc_id ++ lit "::v" ++ str_of_int version
         ++ lit "::chunk-" ++ str_of_int (Z.of_nat idx).

(** The body of [for idx, chunk in enumerate(chunks)]. *)
Definition make_record (doc_id : str) (version : Z) (is_active : bool)
    (file_name ingestion_time : str) (idx : nat) (chunk : Chunk)
    : IngestionRecord :=
  let page_str := join (lit ",") (str_of_int <$> pages chunk) in
  {| id := record_id doc_id version idx;
     record_text := chunk_text chunk;
     metadata := {| doc_id := doc_id;
                    doc_version := version;
                    is_active := is_active;
                    source := file_name;
                    pages_str := page_str;
                    ingested_at := ingestion_time |} |}.

(** [ingest_document]: [None] when the chunking loop does not come back
    within [fuel] iterations, [Some (Raise e)] when extraction raises,
    [Some (Ok records)] otherwise. The closing [print] is left out. *)
Definition ingest_document (pf : Platform) (w : World) (cfg : Config)
    (fuel : nat) (file_path doc_id : str) (version : Z) (is_active : bool)
    : option (result (list IngestionRecord)) :=
  let file_name := basename pf file_path in
  match extract_pages pf w file_path with
  | Raise e => Some (Raise e)
  | Ok pages =>
      match chunk_pages fuel pages (CHUNK_SIZE cfg) (CHUNK_OVERLAP cfg) with
      | None => None
      | Some chunks =>
          let ingestion_time := utcnow_isoformat w in
          Some (Ok (imap (make_record doc_id version is_active
                            file_name ingestion_time) chunks))
      end
  end.

(** ** A POSIX platform

    [posixpath.splitext] and [posixpath.basename] as CPython defines them,
    and [str.lower] on the code points below 256: the capitals A-Z and
    the Latin-1 capitals U+00C0-U+00DE (but the sign U+00D7) move up by 32,
    every other code point below 256 stays. Code points from 256 on are left
    as they are, where [str.lower] follows the Unicode tables; the sample
    paths are ASCII. The theorems below hold for every [Platform]; this one
    runs the examples. *)

(** [p.rfind(c)]: the index of the last [c] in [p], or [-1]. *)
Fixpoint rfind_from (c : char) (p : str) (i found : Z) : Z :=
  match p with
  | [] => found
  | x :: p' => rfind_from c p' (i + 1) (if (x =? c)%N then i else found)
  end.

Definition rfind (c : char) (p : str) : Z := rfind_from c p 0 (-1).

Definition DOT : char := 46%N.
Definition SLASH : char := 47%N.

Definition posix_splitext (p : str) : str * str :=
  let sepIndex := rfind SLASH p in
  let dotIndex := rfind DOT p in
  if sepIndex <? dotIndex then
    (* the name is all leading dots up to [dotIndex]: no extension *)
    if forallb (N.eqb DOT) (slice p (sepIndex + 1) dotIndex)
    then (p, [])
    else (slice p 0 dotIndex, slice p dotIndex (len p))
  else (p, []).

Definition posix_basename (p : str) : str :=
  let i := rfind SLASH p + 1 in
  slice p i (len p).

Definition lower_latin1 (s : str) : str :=
  (λ c, if ((65 <=? c) && (c <=? 90)
            || (192 <=? c) && (c <=? 222) && negb (c =? 215))%N
        then (c + 32)%N else c) <$> s.

Definition posix : Platform :=
  {| splitext := posix_splitext;
     basename := posix_basename;
     lower := lower_latin1 |}.

(** ** Vocabulary of the properties *)

Definition blank (s : str) : Prop := Forall (λ c, isspace c = true) s.

Definition starts_tight (s : str) : Prop :=
  match s with c :: _ => isspace c = false | [] => True end.

Fixpoint single_spaced (s : str) : Prop :=
  match s with
  | [] => True
  | c :: s' => (isspace c = true → starts_tight s') ∧ single_spaced s'
  end.

(** Non-empty text whose ends are not whitespace and whose inner runs of
    whitespace have length one: what [clean_text] returns and what
    [full_text] is at every turn of the page loop. *)
Definition tight (s : str) : Prop :=
  single_spaced s ∧ starts_tight s ∧ starts_tight (reverse s).

(** The pages that take part in the stream: [if cleaned:]. *)
Definition contributes (p : Page) : bool := truthy (clean_text (text p)).

Definition contributing (pages : list Page) : list Page :=
  filter (λ p, contributes p = true) pages.

(** What holds of [(full_text, char_to_page)] after the loop has gone
    through [pages]: the lists have one length, the text is tight, and every
    entry of the map is the number of a page that contributed text. *)
Record stream_inv (pages : list Page) (st : str * list Z) : Prop := {
  inv_length : length st.2 = length st.1;
  inv_tight : st.1 ≠ [] → tight st.1;
  inv_source : ∀ n, n ∈ st.2 →
    ∃ p, p ∈ pages ∧ page p = n ∧ clean_text (text p) ≠ []
}.

(** [end] of the window that starts at [start]. *)
Definition window_end (full_text : str) (chunk_size start : Z) : Z :=
  Z.min (start + chunk_size) (len full_text).

(** What one turn of the [while] loop appends to [chunks]: one chunk, or
    nothing when the window strips to the empty string. *)
Definition window_chunk (full_text : str) (char_to_page : list Z)
    (chunk_size start : Z) : list Chunk :=
  let end_ := window_end full_text chunk_size start in
  let chunk := strip (slice full_text start end_) in
  if truthy chunk
  then [mkChunk chunk (sorted (set_of (slice char_to_page start end_)))]
  else [].

(** The first [n] values of [start]. *)
Fixpoint window_starts (step start : Z) (n : nat) : list Z :=
  match n with
  | O => []
  | S n' => start :: window_starts step (start + step) n'
  end.

(** The number of multiples of [step] below [L]. *)
Definition window_count (L step : Z) : nat := Z.to_nat ((L + step - 1) / step).

(** A record with its timestamp replaced. *)
Definition with_ingested_at (t : str) (r : IngestionRecord)
    : IngestionRecord :=
  {| id := id r;
     record_text := record_text r;
     metadata := {| doc_id := doc_id (metadata r);
                    doc_version := doc_version (metadata r);
                    is_active := is_active (metadata r);
                    source := source (metadata r);
                    pages_str := pages_str (metadata r);
                    ingested_at := t |} |}.

(** No colon among the characters of a string. *)
Definition colon_free (s : string) : Prop :=
  Forall (λ a, a ≠ ":"%char) (list_ascii_of_string s).

(** The records of a call that returned some. *)
Definition records_of (o : option (result (list IngestionRecord)))
    : list IngestionRecord :=
  match o with Some (Ok records) => records | _ => [] end.

(** The records of a batch follow [chunks]: as many records as chunks, and
    the record at index [i] has the id [doc_id::v<version>::chunk-<i>], the
    text of the [i]-th chunk and its pages, comma-joined. *)
Definition ids_in_chunk_order (did : str) (v : Z) (chunks : list Chunk)
    (records : list IngestionRecord) : Prop :=
  length records = length chunks ∧
  ∀ (i : nat) r, records !! i = Some r →
    id r = did ++ lit "::v" ++ str_of_int v
               ++ lit "::chunk-" ++ str_of_int (Z.of_nat i) ∧
    ∃ c, chunks !! i = Some c ∧ record_text r = chunk_text c ∧
         pages_str (metadata r) = join (lit ",") (str_of_int <$> pages c).

(** Two records that agree on everything but [ingested_at]. *)
Definition same_but_time (r1 r2 : IngestionRecord) : Prop :=
  id r1 = id r2 ∧
  record_text r1 = record_text r2 ∧
  doc_id (metadata r1) = doc_id (metadata r2) ∧
  doc_version (metadata r1) = doc_version (metadata r2) ∧
  is_active (metadata r1) = is_active (metadata r2) ∧
  source (metadata r1) = source (metadata r2) ∧
  pages_str (metadata r1) = pages_str (metadata r2).

(** ** Sample inputs *)

(** The example of the specification: two pages, 25 characters. *)
Definition pages_hello : list Page :=
  [mkPage 1 (lit "Hello world."); mkPage 2 (lit "Goodbye now.")].

(** Page 3 ends "... end." and page 4 starts "Start ...". *)
Definition pages_34 : list Page :=
  [mkPage 3 (lit "The end."); mkPage 4 (lit "Start now")].

(** A blank page between two pages with text; the first has a tab and a
    line feed between its words. *)
Definition page_one : Page :=
  mkPage 1 (lit "  one" ++ [9%N; 10%N] ++ lit "two ").

Definition page_three : Page := mkPage 3 (lit "three").

Definition pages_gap : list Page :=
  [page_one; mkPage 2 (lit "   "); page_three].

Definition pages_ab : list Page := [mkPage 1 (lit "a b")].

Definition pages_blank : list Page := [mkPage 1 (lit " ")].

(** A world whose text files all read as [content], and one whose PDFs all
    open with the pages [reader_pages]. *)
Definition txt_world (content now : str) : World :=
  {| PdfReader := λ _, Raise (LibraryError (lit "FileNotFoundError"));
     read_text := λ _, Ok content;
     utcnow_isoformat := now |}.

Definition pdf_world (reader_pages : list (result (option str)))
    (now : str) : World :=
  {| PdfReader := λ _, Ok reader_pages;
     read_text := λ _, Raise (LibraryError (lit "FileNotFoundError"));
     utcnow_isoformat := now |}.

Definition config_10_2 : Config := {| CHUNK_SIZE := 10; CHUNK_OVERLAP := 2 |}.

(** A configuration under which the chunking loop would never return. *)
Definition config_stuck : Config := {| CHUNK_SIZE := 5; CHUNK_OVERLAP := 5 |}.

Definition hello_text : str := lit "Hello world. Goodbye now.".

Definition time_1 : str := lit "2024-05-01T10:00:00.000001".
Definition time_2 : str := lit "2024-05-02T11:30:00.000002".

(** The batches of the text file "Hello world. Goodbye now." under
    [config_10_2], written out: record texts, ids and page strings. *)
Definition sample_record (rid chunk pgs : string) (v : Z) (now : str)
    : IngestionRecord :=
  {| id := lit rid;
     record_text := lit chunk;
     metadata := {| doc_id := lit "apple_q2_report";
                    doc_version := v;
                    is_active := true;
                    source := lit "notes.txt";
                    pages_str := lit pgs;
                    ingested_at := now |} |}.

Definition batch_v1 : list IngestionRecord :=
  [sample_record "apple_q2_report::v1::chunk-0" "Hello worl" "1" 1 time_1;
   sample_record "apple_q2_report::v1::chunk-1" "rld. Goodb" "1" 1 time_1;
   sample_record "apple_q2_report::v1::chunk-2" "dbye now." "1" 1 time_1;
   sample_record "apple_q2_report::v1::chunk-3" "." "1" 1 time_1].

Definition batch_v2 : list IngestionRecord :=
  [sample_record "apple_q2_report::v2::chunk-0" "Hello worl" "1" 2 time_2;
   sample_record "apple_q2_report::v2::chunk-1" "rld. Goodb" "1" 2 time_2;
   sample_record "apple_q2_report::v2::chunk-2" "dbye now." "1" 2 time_2;
   sample_record "apple_q2_report::v2::chunk-3" "." "1" 2 time_2].

(** Steps of the sample proofs: run the program, and point at the
    [i]-th element of a list. *)
Ltac by_running := vm_compute; reflexivity.
Ltac at_index i := apply list_elem_of_lookup; exists i; reflexivity.

(** The only whitespace of a text is the plain space. *)
Definition spaces_plain (s : str) : Prop :=
  Forall (λ c, isspace c = true → c = SPACE) s.

(** The characters of a text that are not whitespace, in order. *)
Definition visible (s : str) : str := filter (λ c, isspace c = false) s.

(** The characters of a decimal numeral: the minus sign and the digits. *)
Definition numeral_char (c : N) : Prop := (c = 45 ∨ 48 ≤ c ≤ 57)%N.

(** * Properties *)

(** ** Whitespace stripping *)

Lemma truthy_true {A} (xs : list A) : truthy xs = true ↔ xs ≠ [].
Proof. destruct xs; simpl; split; congruence. Qed.

Lemma truthy_false {A} (xs : list A) : truthy xs = false ↔ xs = [].
Proof. destruct xs; simpl; split; congruence. Qed.

Lemma lstrip_split (s : str) : ∃ pre, s = pre ++ lstrip s ∧ blank pre.
Proof.
  induction s as [|c s [pre [Hs Hpre]]]; simpl.
  - exists []. split; [done | constructor].
  - destruct (isspace c) eqn:Hc.
    + exists (c :: pre). split; [simpl; congruence | by constructor].
    + exists []. split; [done | constructor].
Qed.

Lemma lstrip_head (s : str) c t : lstrip s = c :: t → isspace c = false.
Proof.
  induction s as [|d s IH]; simpl; [done |].
  destruct (isspace d) eqn:Hd; [done |]. intros [= -> _]. done.
Qed.

Lemma lstrip_nil (s : str) : lstrip s = [] ↔ blank s.
Proof.
  induction s as [|c s IH]; simpl.
  - split; [constructor | done].
  - destruct (isspace c) eqn:Hc.
    + rewrite IH. split; [by constructor | by inversion 1].
    + split; [done |]. inversion 1; congruence.
Qed.

Lemma lstrip_id (s : str) c t : s = c :: t → isspace c = false → lstrip s = s.
Proof. intros -> Hc. simpl. by rewrite Hc. Qed.

Lemma blank_reverse (s : str) : blank (reverse s) ↔ blank s.
Proof. unfold blank. by rewrite Forall_reverse. Qed.

Lemma blank_app (s t : str) : blank (s ++ t) ↔ blank s ∧ blank t.
Proof. apply Forall_app. Qed.

Lemma strip_nil (s : str) : strip s = [] ↔ blank s.
Proof.
  unfold strip, rstrip.
  destruct (lstrip_split s) as [pre [Hs Hpre]].
  split.
  - intros H. apply (f_equal reverse) in H.
    rewrite reverse_involutive in H. simpl in H.
    rewrite lstrip_nil, blank_reverse in H.
    rewrite Hs. apply blank_app. by split.
  - intros H. apply lstrip_nil in H. rewrite H. done.
Qed.

Lemma strip_truthy (s : str) : truthy (strip s) = true ↔ ¬ blank s.
Proof. rewrite truthy_true, strip_nil. done. Qed.

(** [strip] cuts a blank prefix and a blank suffix off. *)
Lemma strip_split (s : str) :
  ∃ pre post, s = pre ++ strip s ++ post ∧ blank pre ∧ blank post.
Proof.
  destruct (lstrip_split s) as [pre [Hs Hpre]].
  destruct (lstrip_split (reverse (lstrip s))) as [post [Hr Hpost]].
  exists pre, (reverse post). split_and!.
  - rewrite Hs at 1. f_equal. unfold strip, rstrip.
    rewrite <- reverse_app, <- Hr. by rewrite reverse_involutive.
  - done.
  - by apply blank_reverse.
Qed.

Lemma strip_head (s : str) c t : strip s = c :: t → isspace c = false.
Proof.
  unfold strip, rstrip. intros H.
  destruct (lstrip_split (reverse (lstrip s))) as [post [Hr Hpost]].
  apply (f_equal reverse) in Hr. rewrite reverse_involutive, reverse_app in Hr.
  rewrite H in Hr. eapply lstrip_head. exact Hr.
Qed.

Lemma strip_last (s : str) c : last (strip s) = Some c → isspace c = false.
Proof.
  unfold strip, rstrip. rewrite last_reverse. intros H.
  destruct (lstrip (reverse (lstrip s))) as [|d t] eqn:E; [done |].
  simpl in H. injection H as ->. eapply lstrip_head. exact E.
Qed.

(** ** Normalised text has no two whitespace characters in a row *)

Lemma starts_tight_app (s t : str) :
  s ≠ [] → starts_tight s → starts_tight (s ++ t).
Proof. by destruct s. Qed.

Lemma single_spaced_app_inv (s t : str) :
  single_spaced (s ++ t) → single_spaced s ∧ single_spaced t.
Proof.
  induction s as [|c s IH]; simpl; [done |].
  intros [Hc Hs]. destruct (IH Hs) as [? ?]. split_and!; [|done..].
  intros Hsp. specialize (Hc Hsp). by destruct s.
Qed.

Lemma single_spaced_app (s t : str) :
  single_spaced s → single_spaced t →
  starts_tight (reverse s) ∨ starts_tight t →
  single_spaced (s ++ t).
Proof.
  induction s as [|c s IH]; simpl; [done |].
  intros [Hc Hs] Ht Hmid. split.
  - intros Hsp. destruct s as [|d s]; simpl.
    + destruct Hmid as [Hmid | Hmid]; [| done].
      simpl in Hmid. congruence.
    + by apply Hc.
  - apply IH; [done.. |].
    destruct Hmid as [Hmid | Hmid]; [left | by right].
    destruct s as [|d s]; [done |].
    rewrite reverse_cons in Hmid.
    destruct (reverse (d :: s)) eqn:E; [| done].
    apply (f_equal length) in E. rewrite length_reverse in E. done.
Qed.

Lemma single_spaced_lookup (s : str) (i : nat) c d :
  single_spaced s → s !! i = Some c → s !! S i = Some d →
  isspace c = true → isspace d = false.
Proof.
  revert i. induction s as [|x s IH]; intros i Hs Hc Hd Hsp; [done |].
  destruct Hs as [Hx Hs]. destruct i as [|i]; simpl in *.
  - injection Hc as ->. destruct s; simplify_eq/=. by apply Hx.
  - by eapply IH.
Qed.

Lemma sub_spaces_head text : starts_tight (sub_spaces true text).
Proof.
  induction text as [|c text IH]; simpl; [done |].
  destruct (isspace c) eqn:Hc; simpl; done.
Qed.

Lemma sub_spaces_single_spaced in_run text :
  single_spaced (sub_spaces in_run text).
Proof.
  revert in_run. induction text as [|c text IH]; intros in_run; simpl; [done |].
  destruct (isspace c) eqn:Hc.
  - destruct in_run; [apply IH |]. simpl. split; [| apply IH].
    intros _. apply sub_spaces_head.
  - simpl. split; [congruence | apply IH].
Qed.

Lemma strip_tight (s : str) :
  single_spaced s → strip s ≠ [] → tight (strip s).
Proof.
  intros Hs Hne. destruct (strip_split s) as (pre & post & E & _ & _).
  split_and!.
  - rewrite E in Hs. apply single_spaced_app_inv in Hs as [_ Hs].
    by apply single_spaced_app_inv in Hs as [Hs _].
  - destruct (strip s) as [|c t] eqn:Hc; [done |]. simpl.
    by eapply strip_head.
  - destruct (reverse (strip s)) as [|c t] eqn:Hc; [done |]. simpl.
    apply (strip_last s). rewrite <- (reverse_involutive (strip s)), Hc.
    by rewrite last_reverse.
Qed.

Lemma clean_text_tight text : clean_text text ≠ [] → tight (clean_text text).
Proof. apply strip_tight, sub_spaces_single_spaced. Qed.

(** Joining two tight texts with one space keeps the text tight. *)
Lemma tight_join (s t : str) :
  tight s → tight t → s ≠ [] → t ≠ [] → tight (s ++ [SPACE] ++ t).
Proof.
  intros (Hs1 & Hs2 & Hs3) (Ht1 & Ht2 & Ht3) Hs Ht. split_and!.
  - apply single_spaced_app; [done | | by left].
    destruct t as [|c t]; [done |]. simpl in *. done.
  - by apply starts_tight_app.
  - rewrite !reverse_app. rewrite <- app_assoc.
    apply starts_tight_app; [| done].
    intros E. apply (f_equal length) in E. rewrite length_reverse in E.
    by destruct t.
Qed.

Lemma tight_last_lookup (s : str) c :
  tight s → s !! pred (length s) = Some c → isspace c = false.
Proof.
  intros (_ & _ & H) Hc. rewrite <- last_lookup in Hc.
  rewrite <- (reverse_involutive s), last_reverse in Hc.
  destruct (reverse s); simplify_eq/=. done.
Qed.

(** ** Slices *)

Lemma adjust_index_range (n i : Z) : 0 ≤ i ≤ n → adjust_index n i = i.
Proof. unfold adjust_index. intros ?. destruct (Z.ltb_spec i 0); lia. Qed.

Lemma slice_range {A} (xs : list A) (a b : Z) :
  0 ≤ a ≤ b → b ≤ len xs →
  slice xs a b = take (Z.to_nat (b - a)) (drop (Z.to_nat a) xs).
Proof.
  intros ??. unfold slice. rewrite !adjust_index_range by lia. done.
Qed.

Lemma slice_lookup {A} (xs : list A) (a b : Z) (i : nat) :
  0 ≤ a ≤ b → b ≤ len xs → a + Z.of_nat i < b →
  slice xs a b !! i = xs !! Z.to_nat (a + Z.of_nat i).
Proof.
  intros ???. rewrite slice_range by done.
  rewrite lookup_take_lt by lia. rewrite lookup_drop. f_equal. lia.
Qed.

Lemma length_slice_range {A} (xs : list A) (a b : Z) :
  0 ≤ a ≤ b → b ≤ len xs → len (slice xs a b) = b - a.
Proof.
  intros ??. rewrite slice_range by done. unfold len in *.
  rewrite length_take, length_drop. lia.
Qed.

(** The members of a window are the entries at its offsets. *)
Lemma elem_of_slice_range {A} (xs : list A) (a b : Z) (x : A) :
  0 ≤ a ≤ b → b ≤ len xs →
  x ∈ slice xs a b ↔ ∃ i, a ≤ i < b ∧ xs !! Z.to_nat i = Some x.
Proof.
  intros Ha Hb. rewrite list_elem_of_lookup. split.
  - intros [i Hi].
    assert (Z.of_nat i < b - a).
    { rewrite <- (length_slice_range xs a b) by done.
      apply lookup_lt_Some in Hi. unfold len. lia. }
    exists (a + Z.of_nat i). split; [lia |].
    rewrite <- slice_lookup with (b := b) by lia. done.
  - intros (i & Hi & Hx). exists (Z.to_nat (i - a)).
    rewrite slice_lookup by lia. rewrite <- Hx. f_equal. lia.
Qed.

(** Whatever the indices, a slice holds elements of the list only. *)
Lemma elem_of_slice {A} (xs : list A) (a b : Z) (x : A) :
  x ∈ slice xs a b → x ∈ xs.
Proof.
  unfold slice. intros H.
  by apply subseteq_take, subseteq_drop in H.
Qed.

Lemma length_slice_same {A B} (xs : list A) (ys : list B) (a b : Z) :
  length xs = length ys → length (slice xs a b) = length (slice ys a b).
Proof.
  intros H. unfold slice, len. rewrite H.
  rewrite !length_take, !length_drop. lia.
Qed.

(** ** [sorted(set(...))] *)

Lemma elem_of_page_set (xs : list Z) (x : Z) :
  x ∈ sorted (set_of xs) ↔ x ∈ xs.
Proof.
  unfold sorted, set_of. rewrite merge_sort_Permutation.
  apply elem_of_remove_dups.
Qed.

Lemma NoDup_page_set (xs : list Z) : NoDup (sorted (set_of xs)).
Proof.
  unfold sorted, set_of. rewrite merge_sort_Permutation.
  apply NoDup_remove_dups.
Qed.

Lemma page_set_sorted_le (xs : list Z) :
  StronglySorted Z.le (sorted (set_of xs)).
Proof. unfold sorted. apply StronglySorted_merge_sort; apply _. Qed.

Lemma strictly_sorted_of_NoDup (xs : list Z) :
  StronglySorted Z.le xs → NoDup xs → StronglySorted Z.lt xs.
Proof.
  induction 1 as [|x xs Hs IH Hx]; intros Hnd; [constructor |].
  apply NoDup_cons in Hnd as [Hnot Hnd]. constructor; [by apply IH |].
  rewrite Forall_forall in Hx |- *. intros y Hy.
  specialize (Hx y Hy). assert (x ≠ y) by (intros ->; done). lia.
Qed.

(** The page list of a chunk is strictly ascending. *)
Lemma page_set_strict (xs : list Z) :
  StronglySorted Z.lt (sorted (set_of xs)).
Proof.
  apply strictly_sorted_of_NoDup;
    [apply page_set_sorted_le | apply NoDup_page_set].
Qed.

Lemma page_set_nonempty (xs : list Z) : xs ≠ [] → sorted (set_of xs) ≠ [].
Proof.
  destruct xs as [|x xs]; [done |]. intros _ E.
  assert (x ∈ sorted (set_of (x :: xs))) as H
    by (apply elem_of_page_set; left).
  rewrite E in H. by apply elem_of_nil in H.
Qed.

(** The page list is the one ascending list without repeats that has the
    members of the window. *)
Lemma page_set_unique (xs ys : list Z) :
  StronglySorted Z.lt ys → (∀ x, x ∈ ys ↔ x ∈ xs) → sorted (set_of xs) = ys.
Proof.
  intros Hys Hmem.
  assert (NoDup ys) as Hnd.
  { clear Hmem. induction Hys as [|y ys Hs IH Hy]; constructor; [| done].
    intros Hin. rewrite Forall_forall in Hy. specialize (Hy y Hin). lia. }
  apply (StronglySorted_unique Z.le).
  - apply page_set_sorted_le.
  - clear Hmem Hnd. induction Hys as [|y ys Hs IH Hy]; constructor; [done |].
    eapply Forall_impl; [exact Hy |]. simpl. lia.
  - apply NoDup_Permutation; [apply NoDup_page_set | done |].
    intros x. rewrite elem_of_page_set. by rewrite Hmem.
Qed.

(** ** The text stream and the character-to-page map *)

Lemma build_stream_snoc pages p :
  build_stream (pages ++ [p]) = add_page (build_stream pages) p.
Proof. unfold build_stream. by rewrite foldl_snoc. Qed.

Lemma add_page_skip st p : contributes p = false → add_page st p = st.
Proof. unfold add_page, contributes. destruct st. by intros ->. Qed.

Lemma add_page_first (m : list Z) p :
  contributes p = true →
  add_page ([], m) p
  = (clean_text (text p),
     m ++ replicate (length (clean_text (text p))) (page p)).
Proof. unfold add_page, contributes. by intros ->. Qed.

Lemma add_page_next (ft : str) (m : list Z) p :
  contributes p = true → ft ≠ [] →
  add_page (ft, m) p
  = (ft ++ [SPACE] ++ clean_text (text p),
     m ++ [page p] ++ replicate (length (clean_text (text p))) (page p)).
Proof.
  unfold add_page, contributes. intros -> Hft.
  apply truthy_true in Hft. rewrite Hft. by rewrite <- !app_assoc.
Qed.

(** Every turn of the loop appends to both lists. *)
Lemma add_page_grows st p :
  ∃ ft1 m1, add_page st p = (st.1 ++ ft1, st.2 ++ m1).
Proof.
  destruct st as [ft m]. destruct (contributes p) eqn:Hp.
  - destruct ft as [|c ft].
    + rewrite add_page_first by done. by eexists _, _.
    + rewrite add_page_next by done. by eexists _, _.
  - rewrite add_page_skip by done. exists [], []. by rewrite !app_nil_r.
Qed.

Lemma foldl_add_page_grows st pages :
  ∃ ft1 m1, foldl add_page st pages = (st.1 ++ ft1, st.2 ++ m1).
Proof.
  revert st. induction pages as [|p pages IH]; intros st; simpl.
  - exists [], []. rewrite !app_nil_r. by destruct st.
  - destruct (add_page_grows st p) as (ft1 & m1 & E).
    destruct (IH (add_page st p)) as (ft2 & m2 & E2).
    rewrite E2, E. simpl. exists (ft1 ++ ft2), (m1 ++ m2).
    by rewrite !app_assoc.
Qed.

Lemma build_stream_contributing pages :
  build_stream pages = build_stream (contributing pages).
Proof.
  unfold build_stream, contributing. generalize (@nil N, @nil Z).
  induction pages as [|p pages IH]; intros st; [done |].
  rewrite filter_cons. simpl. case_decide as Hp.
  - simpl. apply IH.
  - rewrite add_page_skip; [apply IH |]. by destruct (contributes p).
Qed.

Lemma build_stream_inv pages : stream_inv pages (build_stream pages).
Proof.
  induction pages as [|p pages IH] using rev_ind.
  - split; simpl; [done.. |]. intros n Hn. by apply elem_of_nil in Hn.
  - rewrite build_stream_snoc. destruct IH as [Hlen Htight Hsrc].
    destruct (build_stream pages) as [ft m]. cbn [fst snd] in *.
    assert (∀ n, n ∈ m →
      ∃ q, q ∈ pages ++ [p] ∧ page q = n ∧ clean_text (text q) ≠ []) as Hold.
    { intros n Hn. destruct (Hsrc n Hn) as (q & ? & ? & ?).
      exists q. rewrite elem_of_app. auto. }
    destruct (contributes p) eqn:Hp.
    + assert (clean_text (text p) ≠ []) as Hne by by apply truthy_true.
      assert (∀ n, n ∈ replicate (length (clean_text (text p))) (page p) →
        ∃ q, q ∈ pages ++ [p] ∧ page q = n ∧ clean_text (text q) ≠ [])
        as Hnew.
      { intros n Hn. apply elem_of_replicate_inv in Hn as ->.
        exists p. rewrite elem_of_app, list_elem_of_singleton. auto. }
      destruct ft as [|c ft].
      * rewrite add_page_first by done. split; simpl.
        -- rewrite length_app, length_replicate, Hlen. done.
        -- intros _. by apply clean_text_tight.
        -- intros n. rewrite elem_of_app. intros [?|?]; auto.
      * rewrite add_page_next by done. split; simpl.
        -- rewrite !length_app. simpl. rewrite length_replicate.
           simpl in Hlen. lia.
        -- intros _. apply (tight_join (c :: ft));
             [by apply Htight | by apply clean_text_tight | done | done].
        -- intros n. rewrite elem_of_app, elem_of_cons.
           intros [?|[->|?]]; auto.
           exists p. rewrite elem_of_app, list_elem_of_singleton. auto.
    + rewrite add_page_skip by done. split; simpl; auto.
Qed.

(** Ascending page numbers give an ascending map. *)
Lemma build_stream_sorted pages :
  StronglySorted Z.le (page <$> pages) →
  StronglySorted Z.le (build_stream pages).2.
Proof.
  induction pages as [|p pages IH] using rev_ind; intros Hs.
  - constructor.
  - rewrite fmap_app in Hs. apply StronglySorted_app in Hs as (Hle & Hs & _).
    specialize (IH Hs). rewrite build_stream_snoc.
    pose proof (build_stream_inv pages) as [_ _ Hsrc].
    destruct (build_stream pages) as [ft m]. cbn [fst snd] in *.
    assert (∀ k, StronglySorted Z.le (replicate k (page p))) as Hrep.
    { induction k; simpl; constructor; [done |].
      apply Forall_forall. intros x Hx.
      apply elem_of_replicate_inv in Hx as ->. done. }
    assert (∀ n x k, n ∈ m → x ∈ page p :: replicate k (page p) → n ≤ x)
      as Hbelow.
    { intros n x k Hn Hx. destruct (Hsrc n Hn) as (q & Hq & <- & _).
      assert (x = page p) as ->.
      { apply elem_of_cons in Hx as [-> | Hx]; [done |].
        by apply elem_of_replicate_inv in Hx. }
      apply Hle; [by apply list_elem_of_fmap_2 | simpl; left]. }
    destruct (contributes p) eqn:Hp; [| by rewrite add_page_skip].
    destruct ft as [|c ft].
    + rewrite add_page_first by done. simpl.
      apply StronglySorted_app. split_and!; [| done | apply Hrep].
      intros n x Hn Hx. eapply Hbelow; [exact Hn |]. right. exact Hx.
    + rewrite add_page_next by done. simpl.
      apply StronglySorted_app. split_and!; [| done |].
      * intros n x Hn Hx. eapply Hbelow; [exact Hn | exact Hx].
      * apply (Hrep (S _)).
Qed.

Lemma StronglySorted_le_lookup (m : list Z) (i j : nat) a b :
  StronglySorted Z.le m → (i ≤ j)%nat →
  m !! i = Some a → m !! j = Some b → a ≤ b.
Proof.
  intros Hm Hij Ha Hb. destruct (decide (i = j)) as [-> | Hne].
  - simplify_eq. lia.
  - rewrite <- (take_drop_middle m i a Ha) in Hm, Hb.
    apply StronglySorted_app in Hm as (_ & _ & Hm).
    apply StronglySorted_cons in Hm as [Hall _].
    assert (length (take i m) = i) as Hlen.
    { rewrite length_take. apply lookup_lt_Some in Ha. lia. }
    rewrite lookup_app_r in Hb by lia. rewrite Hlen in Hb.
    destruct (j - i)%nat as [|k] eqn:E; [lia |]. simpl in Hb.
    rewrite Forall_forall in Hall. apply Hall.
    by eapply list_elem_of_lookup_2.
Qed.

(** ** The windows of the chunking loop *)

Lemma chunk_loop_unfold fuel ft m cs ov start chunks :
  chunk_loop (S fuel) ft m cs ov start chunks
  = if start <? len ft
    then chunk_loop fuel ft m cs ov (start + (cs - ov))
           (chunks ++ window_chunk ft m cs start)
    else Some chunks.
Proof.
  simpl. destruct (start <? len ft); [| done].
  unfold window_chunk, window_end.
  destruct (truthy _); [done |]. by rewrite app_nil_r.
Qed.

Lemma window_starts_lookup step start n (i : nat) :
  (i < n)%nat → window_starts step start n !! i = Some (start + Z.of_nat i * step).
Proof.
  revert start i. induction n as [|n IH]; intros start i Hi; [lia |].
  destruct i as [|i]; simpl.
  - f_equal. lia.
  - rewrite IH by lia. f_equal. lia.
Qed.

Lemma length_window_starts step start n :
  length (window_starts step start n) = n.
Proof. revert start. induction n; intros; simpl; auto. Qed.

Lemma elem_of_window_starts step start n s :
  s ∈ window_starts step start n ↔
  ∃ i : nat, (i < n)%nat ∧ s = start + Z.of_nat i * step.
Proof.
  rewrite list_elem_of_lookup. split.
  - intros [i Hi]. exists i.
    assert (i < n)%nat as Hlt.
    { apply lookup_lt_Some in Hi. by rewrite length_window_starts in Hi. }
    rewrite window_starts_lookup in Hi by done. split; congruence.
  - intros (i & Hi & ->). exists i. by apply window_starts_lookup.
Qed.

(** A run of the loop that returns went through [n] windows, each starting
    inside the text, and stopped at the first start beyond it. *)
Lemma chunk_loop_trace fuel ft m cs ov start chunks out :
  chunk_loop fuel ft m cs ov start chunks = Some out →
  ∃ n : nat,
    (n < fuel)%nat ∧
    out = chunks ++ (window_starts (cs - ov) start n ≫= window_chunk ft m cs) ∧
    Forall (λ s, s < len ft) (window_starts (cs - ov) start n) ∧
    len ft ≤ start + Z.of_nat n * (cs - ov).
Proof.
  revert start chunks. induction fuel as [|fuel IH]; intros start chunks H.
  - done.
  - rewrite chunk_loop_unfold in H. destruct (Z.ltb_spec start (len ft)).
    + destruct (IH _ _ H) as (n & Hn & -> & Hall & Hstop).
      exists (S n). split_and!.
      * lia.
      * simpl. by rewrite <- app_assoc.
      * simpl. by constructor.
      * lia.
    + injection H as <-. exists O. split_and!.
      * lia.
      * simpl. by rewrite app_nil_r.
      * constructor.
      * lia.
Qed.

(** Conversely, with enough fuel the loop goes through those windows and
    returns. *)
Lemma chunk_loop_run n fuel ft m cs ov start chunks :
  (n < fuel)%nat →
  Forall (λ s, s < len ft) (window_starts (cs - ov) start n) →
  len ft ≤ start + Z.of_nat n * (cs - ov) →
  chunk_loop fuel ft m cs ov start chunks
  = Some (chunks ++ (window_starts (cs - ov) start n ≫= window_chunk ft m cs)).
Proof.
  revert fuel start chunks.
  induction n as [|n IH]; intros fuel start chunks Hfuel Hall Hstop.
  - destruct fuel as [|fuel]; [lia |]. rewrite chunk_loop_unfold.
    destruct (Z.ltb_spec start (len ft)); [lia |].
    simpl. by rewrite app_nil_r.
  - destruct fuel as [|fuel]; [lia |]. rewrite chunk_loop_unfold.
    simpl in Hall. apply Forall_cons in Hall as [Hs Hall].
    destruct (Z.ltb_spec start (len ft)); [| lia].
    rewrite (IH fuel) by (done || lia). simpl. by rewrite <- app_assoc.
Qed.

(** A window that does not advance never lets the loop return. *)
Lemma chunk_loop_stuck fuel ft m cs ov start chunks :
  cs ≤ ov → start < len ft → chunk_loop fuel ft m cs ov start chunks = None.
Proof.
  intros Hstep. revert start chunks.
  induction fuel as [|fuel IH]; intros start chunks Hstart; [done |].
  rewrite chunk_loop_unfold. destruct (Z.ltb_spec start (len ft)); [| lia].
  apply IH. lia.
Qed.

Lemma window_count_spec (L step : Z) :
  0 < step → 0 ≤ L →
  Forall (λ s, s < L) (window_starts step 0 (window_count L step)) ∧
  L ≤ Z.of_nat (window_count L step) * step.
Proof.
  intros Hstep HL. unfold window_count.
  assert (0 ≤ (L + step - 1) / step) by (apply Z.div_pos; lia).
  pose proof (Z.mul_div_le (L + step - 1) step Hstep).
  pose proof (Z.mul_succ_div_gt (L + step - 1) step Hstep).
  split.
  - apply Forall_forall. intros s Hs.
    apply elem_of_window_starts in Hs as (i & Hi & ->). nia.
  - nia.
Qed.

(** The count is the only one that fits. *)
Lemma window_count_unique (L step : Z) (n : nat) :
  0 < step →
  Forall (λ s, s < L) (window_starts step 0 n) →
  L ≤ Z.of_nat n * step →
  n = window_count L step.
Proof.
  intros Hstep Hall Hstop.
  assert (0 ≤ L ∨ L < 0) as [HL | HL] by lia.
  - destruct (window_count_spec L step Hstep HL) as [Hall' Hstop'].
    rewrite Forall_forall in Hall, Hall'.
    destruct (Nat.lt_trichotomy n (window_count L step)) as [Hlt | [-> | Hgt]];
      [| done |].
    + specialize (Hall' (0 + Z.of_nat n * step)).
      rewrite elem_of_window_starts in Hall'.
      assert (0 + Z.of_nat n * step < L) by (apply Hall'; eauto). lia.
    + specialize (Hall (0 + Z.of_nat (window_count L step) * step)).
      rewrite elem_of_window_starts in Hall.
      assert (0 + Z.of_nat (window_count L step) * step < L)
        by (apply Hall; eauto). lia.
  - destruct n as [|n].
    + unfold window_count.
      assert ((L + step - 1) / step < 1)
        by (apply Z.div_lt_upper_bound; lia).
      lia.
    + simpl in Hall. apply Forall_cons in Hall as [? _]. lia.
Qed.

(** ** What [chunk_pages] returns *)

Lemma chunk_pages_trace fuel pages cs ov out :
  chunk_pages fuel pages cs ov = Some out →
  ∃ n : nat,
    (n < fuel)%nat ∧
    out = window_starts (cs - ov) 0 n
            ≫= window_chunk (build_stream pages).1 (build_stream pages).2 cs ∧
    Forall (λ s, s < len (build_stream pages).1)
      (window_starts (cs - ov) 0 n) ∧
    len (build_stream pages).1 ≤ Z.of_nat n * (cs - ov).
Proof.
  unfold chunk_pages. destruct (build_stream pages) as [ft m]. intros H.
  apply chunk_loop_trace in H as (n & ? & ? & ? & ?). exists n. auto.
Qed.

Lemma chunk_pages_run pages cs ov fuel :
  0 < cs - ov →
  (window_count (len (build_stream pages).1) (cs - ov) < fuel)%nat →
  chunk_pages fuel pages cs ov
  = Some (window_starts (cs - ov) 0
            (window_count (len (build_stream pages).1) (cs - ov))
          ≫= window_chunk (build_stream pages).1 (build_stream pages).2 cs).
Proof.
  intros Hstep Hfuel. unfold chunk_pages.
  destruct (build_stream pages) as [ft m]. cbn [fst snd] in *.
  destruct (window_count_spec (len ft) (cs - ov) Hstep) as [Hall Hstop];
    [unfold len; lia |].
  by rewrite (chunk_loop_run _ _ _ _ _ _ _ _ Hfuel Hall Hstop).
Qed.

(** With [overlap < chunk_size] the call returns: every fuel above the
    number of windows gives the same list. *)
Lemma chunk_pages_returns pgs cs ov :
  ov < cs →
  ∃ chunks, ∀ fuel,
    (window_count (len (build_stream pgs).1) (cs - ov) < fuel)%nat →
    chunk_pages fuel pgs cs ov = Some chunks.
Proof.
  intros Hov. eexists. intros fuel Hfuel.
  apply chunk_pages_run; [lia | done].
Qed.

(** A chunk of a window is its stripped text and the sorted set of its
    slice of the map. *)
Lemma elem_of_window_chunk ft m cs s c :
  c ∈ window_chunk ft m cs s ↔
  c = mkChunk (strip (slice ft s (window_end ft cs s)))
              (sorted (set_of (slice m s (window_end ft cs s)))) ∧
  ¬ blank (slice ft s (window_end ft cs s)).
Proof.
  unfold window_chunk.
  destruct (truthy (strip _)) eqn:E.
  - rewrite list_elem_of_singleton. apply strip_truthy in E. tauto.
  - rewrite elem_of_nil. apply truthy_false, strip_nil in E. tauto.
Qed.

(** Every returned chunk comes from a window that starts at a multiple of
    the step, inside the text. *)
Lemma chunk_pages_elem fuel pages cs ov out c :
  chunk_pages fuel pages cs ov = Some out → c ∈ out →
  ∃ k : nat,
    Z.of_nat k * (cs - ov) < len (build_stream pages).1 ∧
    c ∈ window_chunk (build_stream pages).1 (build_stream pages).2 cs
          (Z.of_nat k * (cs - ov)).
Proof.
  intros H Hc. apply chunk_pages_trace in H as (n & _ & -> & Hall & _).
  apply list_elem_of_bind in Hc as (s & Hc & Hs).
  rewrite Forall_forall in Hall. specialize (Hall s Hs).
  apply elem_of_window_starts in Hs as (k & _ & ->).
  exists k. by rewrite Z.add_0_l in *.
Qed.

Lemma slice_not_blank_nonempty (s : str) : ¬ blank s → s ≠ [].
Proof. intros H ->. apply H. constructor. Qed.

(** ** Chunk invariants *)

(** C8. Every chunk that [chunk_pages] returns has a page list in strictly
    ascending order (hence without repeats), a non-empty text, and a
    non-empty page list. This holds for all values of [chunk_size] and
    [overlap]; by [chunk_pages_returns] the call does return when
    [overlap < chunk_size]. *)
Theorem chunk_invariant fuel pgs cs ov chunks :
  chunk_pages fuel pgs cs ov = Some chunks →
  Forall (λ c, StronglySorted Z.lt (pages c) ∧
               NoDup (pages c) ∧
               chunk_text c ≠ [] ∧
               (chunk_text c ≠ [] → pages c ≠ [])) chunks.
Proof.
  intros H. apply Forall_forall. intros c Hc.
  destruct (chunk_pages_elem _ _ _ _ _ _ H Hc) as (k & _ & Hw).
  apply elem_of_window_chunk in Hw as [-> Hnb]. simpl.
  pose proof (build_stream_inv pgs) as [Hlen _ _].
  split_and!.
  - apply page_set_strict.
  - apply NoDup_page_set.
  - by rewrite strip_nil.
  - intros _. apply page_set_nonempty.
    apply slice_not_blank_nonempty in Hnb.
    intros E. apply Hnb, length_zero_iff_nil.
    rewrite (length_slice_same _ (build_stream pgs).2) by done.
    by rewrite E.
Qed.

Lemma chunk_invariant_witness :
  Forall (λ c, StronglySorted Z.lt (pages c) ∧
               NoDup (pages c) ∧
               chunk_text c ≠ [] ∧
               (chunk_text c ≠ [] → pages c ≠ []))
    [mkChunk (lit "Hello worl") [1]; mkChunk (lit "rld. Goodb") [1; 2];
     mkChunk (lit "dbye now.") [2]; mkChunk (lit ".") [2]].
Proof.
  apply (chunk_invariant 5 pages_hello 10 2). by_running.
Defined.

(** ** Page attribution *)

Lemma strictly_sorted_1 (a : Z) : StronglySorted Z.lt [a].
Proof. repeat constructor. Qed.

Lemma strictly_sorted_2 (a b : Z) : a < b → StronglySorted Z.lt [a; b].
Proof. intros. repeat constructor. done. Qed.

(** C1. With a positive [chunk_size] above [overlap], every returned chunk
    is the chunk of a window [start .. end) of the stream, with [start] a
    multiple of the step and
    [end = min(start + chunk_size, len(full_text))], and its page list holds
    exactly the entries of the character map at the offsets of that window:
    every page that has a character in the window, and no other. So a window
    whose characters all belong to one page [a] reports [[a]] (page 3 alone:
    [[3]]), and a window with characters of [a] and of [b], [a < b], and of
    no other page reports [[a; b]] (across the break between pages 3 and 4:
    [[3; 4]]). *)
Theorem page_attribution fuel pgs cs ov chunks c :
  0 < cs → ov < cs →
  chunk_pages fuel pgs cs ov = Some chunks → c ∈ chunks →
  ∃ start end_ : Z,
    (∃ k : nat, start = Z.of_nat k * (cs - ov)) ∧
    0 ≤ start < end_ ∧
    end_ = Z.min (start + cs) (len (build_stream pgs).1) ∧
    chunk_text c = strip (slice (build_stream pgs).1 start end_) ∧
    (∀ n, n ∈ pages c ↔
       ∃ i, start ≤ i < end_ ∧ (build_stream pgs).2 !! Z.to_nat i = Some n) ∧
    (∀ a,
       (∀ i, start ≤ i < end_ →
          (build_stream pgs).2 !! Z.to_nat i = Some a) →
       pages c = [a]) ∧
    (∀ a b, a < b →
       (∀ i, start ≤ i < end_ →
          (build_stream pgs).2 !! Z.to_nat i = Some a ∨
          (build_stream pgs).2 !! Z.to_nat i = Some b) →
       (∃ i, start ≤ i < end_ ∧ (build_stream pgs).2 !! Z.to_nat i = Some a) →
       (∃ j, start ≤ j < end_ ∧ (build_stream pgs).2 !! Z.to_nat j = Some b) →
       pages c = [a; b]).
Proof.
  intros Hcs Hov H Hc.
  destruct (chunk_pages_elem _ _ _ _ _ _ H Hc) as (k & Hk & Hw).
  apply elem_of_window_chunk in Hw as [-> _].
  pose proof (build_stream_inv pgs) as [Hlen _ _].
  set (ft := (build_stream pgs).1) in *. set (m := (build_stream pgs).2) in *.
  set (start := Z.of_nat k * (cs - ov)) in *.
  assert (0 ≤ start) by (unfold start; nia).
  assert (len m = len ft) as Hlen' by (unfold len; lia).
  exists start, (window_end ft cs start). unfold window_end.
  assert (∀ n, n ∈ slice m start (Z.min (start + cs) (len ft)) ↔
     ∃ i, start ≤ i < Z.min (start + cs) (len ft) ∧ m !! Z.to_nat i = Some n)
    as Hmem by (intros n; apply elem_of_slice_range; lia).
  simpl. split_and!; [by exists k | lia | lia | done | done | ..].
  - intros n. by rewrite elem_of_page_set.
  - intros a Hall. apply page_set_unique; [apply strictly_sorted_1 |].
    intros n. rewrite list_elem_of_singleton, Hmem. split.
    + intros ->. exists start. split; [lia |]. apply Hall. lia.
    + intros (i & Hi & Hn). specialize (Hall i Hi). congruence.
  - intros a b Hab Hall Ha Hb.
    apply page_set_unique; [by apply strictly_sorted_2 |].
    intros n. rewrite elem_of_cons, list_elem_of_singleton, Hmem. split.
    + intros [-> | ->]; done.
    + intros (i & Hi & Hn). destruct (Hall i Hi); [left | right]; congruence.
Qed.

Lemma page_attribution_witness :
  ∃ start end_ : Z,
    (∃ k : nat, start = Z.of_nat k * (6 - 2)) ∧
    0 ≤ start < end_ ∧
    end_ = Z.min (start + 6) (len (build_stream pages_34).1) ∧
    lit "end. S" = strip (slice (build_stream pages_34).1 start end_) ∧
    (∀ n, n ∈ [3; 4] ↔
       ∃ i, start ≤ i < end_ ∧
            (build_stream pages_34).2 !! Z.to_nat i = Some n) ∧
    (∀ a,
       (∀ i, start ≤ i < end_ →
          (build_stream pages_34).2 !! Z.to_nat i = Some a) →
       [3; 4] = [a]) ∧
    (∀ a b, a < b →
       (∀ i, start ≤ i < end_ →
          (build_stream pages_34).2 !! Z.to_nat i = Some a ∨
          (build_stream pages_34).2 !! Z.to_nat i = Some b) →
       (∃ i, start ≤ i < end_ ∧
             (build_stream pages_34).2 !! Z.to_nat i = Some a) →
       (∃ j, start ≤ j < end_ ∧
             (build_stream pages_34).2 !! Z.to_nat j = Some b) →
       [3; 4] = [a; b]).
Proof.
  apply (page_attribution 6 pages_34 6 2
           [mkChunk (lit "The en") [3]; mkChunk (lit "end. S") [3; 4];
            mkChunk (lit "Start") [4]; mkChunk (lit "rt now") [4];
            mkChunk (lit "ow") [4]]
           (mkChunk (lit "end. S") [3; 4])).
  - lia.
  - lia.
  - by_running.
  - at_index 1%nat.
Defined.

(** C10. Every page number in the page list of a returned chunk is the
    number of an input page whose text normalises to a non-empty string;
    and the [pages] metadata of every record of [ingest_document] is the
    comma-joined list of such numbers. *)
Theorem provenance_sound :
  (∀ fuel pgs cs ov chunks c n,
     chunk_pages fuel pgs cs ov = Some chunks → c ∈ chunks → n ∈ pages c →
     ∃ p, p ∈ pgs ∧ page p = n ∧ clean_text (text p) ≠ []) ∧
  (∀ pf w cfg fuel path did v act records r,
     ingest_document pf w cfg fuel path did v act = Some (Ok records) →
     r ∈ records →
     ∃ pgs ns,
       extract_pages pf w path = Ok pgs ∧
       pages_str (metadata r) = join (lit ",") (str_of_int <$> ns) ∧
       ∀ n, n ∈ ns → ∃ p, p ∈ pgs ∧ page p = n ∧ clean_text (text p) ≠ []).
Proof.
  assert (∀ fuel pgs cs ov chunks c n,
     chunk_pages fuel pgs cs ov = Some chunks → c ∈ chunks → n ∈ pages c →
     ∃ p, p ∈ pgs ∧ page p = n ∧ clean_text (text p) ≠ []) as Hchunk.
  { intros fuel pgs cs ov chunks c n H Hc Hn.
    destruct (chunk_pages_elem _ _ _ _ _ _ H Hc) as (k & _ & Hw).
    apply elem_of_window_chunk in Hw as [-> _]. simpl in Hn.
    apply elem_of_page_set, elem_of_slice in Hn.
    by apply (build_stream_inv pgs). }
  split; [exact Hchunk |].
  intros pf w cfg fuel path did v act records r H Hr.
  unfold ingest_document in H.
  destruct (extract_pages pf w path) as [pgs | e] eqn:Hpgs; [| done].
  destruct (chunk_pages fuel pgs _ _) as [chunks |] eqn:Hchunks; [| done].
  injection H as <-.
  apply elem_of_lookup_imap in Hr as (i & c & -> & Hc).
  exists pgs, (pages c). split_and!; [done | done |].
  intros n Hn. eapply Hchunk; [exact Hchunks | | exact Hn].
  by eapply list_elem_of_lookup_2.
Qed.

Lemma provenance_sound_witness :
  ∃ p, p ∈ pages_gap ∧ page p = 3 ∧ clean_text (text p) ≠ [].
Proof.
  destruct provenance_sound as [Hchunk _].
  apply (Hchunk 4%nat pages_gap 10 2
           [mkChunk (lit "one two th") [1; 3]; mkChunk (lit "three") [3]]
           (mkChunk (lit "three") [3]) 3).
  - by_running.
  - at_index 1%nat.
  - at_index 0%nat.
Defined.

(** ** Stream construction *)

Lemma contributing_elem pgs l p r :
  contributing pgs = l ++ p :: r → contributes p = true.
Proof.
  intros E. assert (p ∈ contributing pgs) as H.
  { rewrite E, elem_of_app, elem_of_cons. auto. }
  unfold contributing in H. by apply list_elem_of_filter in H as [? _].
Qed.

Lemma build_stream_last_page pgs p :
  contributes p = true →
  ∃ ft0, (build_stream (pgs ++ [p])).1 = ft0 ++ clean_text (text p).
Proof.
  intros Hp. rewrite build_stream_snoc.
  destruct (build_stream pgs) as [[|c ft] m].
  - rewrite add_page_first by done. by exists [].
  - rewrite add_page_next by done. simpl.
    exists (c :: ft ++ [SPACE]). simpl. f_equal. by rewrite <- app_assoc.
Qed.

(** C6. Let [p] and [q] be two consecutive pages among those that
    normalise to non-empty text. The stream is the stream as it stands after
    [p], then one space, then the text of [q], then the rest; the map is the
    map as it stands after [p], then the page number of [q] for that space,
    then the page number of [q] once per character of its text, then the
    rest. The text of [p] ends the stream before the space, and neither it
    nor the text of [q] has whitespace at its ends ([tight]), so the
    inserted space is the only whitespace between them. *)
Theorem separator_attribution pgs before p q after :
  contributing pgs = before ++ p :: q :: after →
  ∃ ft1 m1,
    (build_stream pgs).1
    = (build_stream (before ++ [p])).1
        ++ [SPACE] ++ clean_text (text q) ++ ft1 ∧
    (build_stream pgs).2
    = (build_stream (before ++ [p])).2
        ++ [page q] ++ replicate (length (clean_text (text q))) (page q)
        ++ m1 ∧
    (build_stream pgs).1 !! length (build_stream (before ++ [p])).1
    = Some SPACE ∧
    (build_stream pgs).2 !! length (build_stream (before ++ [p])).1
    = Some (page q) ∧
    (∃ ft0, (build_stream (before ++ [p])).1 = ft0 ++ clean_text (text p)) ∧
    tight (clean_text (text p)) ∧
    tight (clean_text (text q)).
Proof.
  intros E.
  assert (contributes p = true) as Hp by by eapply contributing_elem.
  assert (contributes q = true) as Hq.
  { apply (contributing_elem pgs (before ++ [p]) q after).
    by rewrite <- app_assoc. }
  destruct (build_stream_last_page before p Hp) as [ft0 Hft0].
  pose proof (build_stream_inv (before ++ [p])) as [Hlen _ _].
  destruct (build_stream (before ++ [p])) as [ft m] eqn:Est.
  cbn [fst snd] in *.
  assert (ft ≠ []) as Hne.
  { rewrite Hft0. intros H. apply app_eq_nil in H as [_ H].
    by apply truthy_true in Hp. }
  assert (∃ ft1 m1, build_stream pgs
    = (ft ++ [SPACE] ++ clean_text (text q) ++ ft1,
       m ++ [page q] ++ replicate (length (clean_text (text q))) (page q)
         ++ m1)) as (ft1 & m1 & Hst).
  { rewrite build_stream_contributing, E.
    replace (before ++ p :: q :: after) with ((before ++ [p]) ++ q :: after)
      by by rewrite <- app_assoc.
    unfold build_stream. rewrite foldl_app. simpl.
    fold (build_stream (before ++ [p])). rewrite Est.
    rewrite add_page_next by done.
    destruct (foldl_add_page_grows
      (ft ++ [SPACE] ++ clean_text (text q),
       m ++ [page q] ++ replicate (length (clean_text (text q))) (page q))
      after) as (ft1 & m1 & ->).
    cbn [fst snd]. exists ft1, m1. by rewrite <- !app_assoc. }
  rewrite Hst. cbn [fst snd]. exists ft1, m1. split_and!.
  - done.
  - done.
  - by apply list_lookup_middle.
  - rewrite <- Hlen. by apply list_lookup_middle.
  - by exists ft0.
  - apply clean_text_tight. by apply truthy_true.
  - apply clean_text_tight. by apply truthy_true.
Qed.

Lemma separator_attribution_witness :
  ∃ ft1 m1,
    (build_stream pages_gap).1
    = (build_stream ([] ++ [page_one])).1
        ++ [SPACE] ++ clean_text (text page_three) ++ ft1 ∧
    (build_stream pages_gap).2
    = (build_stream ([] ++ [page_one])).2
        ++ [page page_three]
        ++ replicate (length (clean_text (text page_three))) (page page_three)
        ++ m1 ∧
    (build_stream pages_gap).1 !! length (build_stream ([] ++ [page_one])).1
    = Some SPACE ∧
    (build_stream pages_gap).2 !! length (build_stream ([] ++ [page_one])).1
    = Some (page page_three) ∧
    (∃ ft0, (build_stream ([] ++ [page_one])).1
            = ft0 ++ clean_text (text page_one)) ∧
    tight (clean_text (text page_one)) ∧
    tight (clean_text (text page_three)).
Proof.
  apply (separator_attribution pages_gap [] page_one page_three []).
  by_running.
Defined.

(** C7. When the pages come in ascending order of page number, then after
    every turn of the page loop (after the first [k] pages, for every [k],
    hence also at the end) the character map is as long as the text and its
    entries never decrease with the offset; and a page that normalises to
    the empty string leaves both the text and the map as they were. *)
Theorem char_map_invariant pgs :
  StronglySorted Z.le (page <$> pgs) →
  (∀ k : nat,
     length (build_stream (take k pgs)).2
     = length (build_stream (take k pgs)).1 ∧
     ∀ (i j : nat) a b, (i ≤ j)%nat →
       (build_stream (take k pgs)).2 !! i = Some a →
       (build_stream (take k pgs)).2 !! j = Some b → a ≤ b) ∧
  (∀ st p, clean_text (text p) = [] → add_page st p = st).
Proof.
  intros Hs. split.
  - intros k. split; [apply (build_stream_inv (take k pgs)) |].
    intros i j a b. apply StronglySorted_le_lookup, build_stream_sorted.
    rewrite <- (take_drop k pgs), fmap_app in Hs.
    by apply StronglySorted_app_1_l in Hs.
  - intros st p Hp. apply add_page_skip. unfold contributes. by rewrite Hp.
Qed.

Lemma char_map_invariant_witness :
  (∀ k : nat,
     length (build_stream (take k pages_gap)).2
     = length (build_stream (take k pages_gap)).1 ∧
     ∀ (i j : nat) a b, (i ≤ j)%nat →
       (build_stream (take k pages_gap)).2 !! i = Some a →
       (build_stream (take k pages_gap)).2 !! j = Some b → a ≤ b) ∧
  (∀ st p, clean_text (text p) = [] → add_page st p = st).
Proof.
  apply (char_map_invariant pages_gap).
  simpl. repeat constructor; lia.
Defined.

(** ** Window offsets and termination *)

Lemma blank_lookup (s : str) (i : nat) c :
  blank s → s !! i = Some c → isspace c = true.
Proof. intros H Hc. by apply (Forall_lookup_1 _ _ _ _ H Hc). Qed.

(** In a tight text, a window of two characters or more, or one that
    reaches the end of the text, does not strip to the empty string. *)
Lemma window_not_blank (ft : str) (s e : Z) :
  tight ft → 0 ≤ s < e → e ≤ len ft → s + 2 ≤ e ∨ e = len ft →
  ¬ blank (slice ft s e).
Proof.
  intros Ht Hs He Hcase Hb. destruct Hcase as [Hwide | ->].
  - assert (is_Some (ft !! Z.to_nat s)) as [c Hc]
      by (apply lookup_lt_is_Some; unfold len in *; lia).
    assert (is_Some (ft !! S (Z.to_nat s))) as [d Hd]
      by (apply lookup_lt_is_Some; unfold len in *; lia).
    assert (slice ft s e !! 0%nat = Some c) as Hc'.
    { rewrite slice_lookup by lia. rewrite <- Hc. f_equal. lia. }
    assert (slice ft s e !! 1%nat = Some d) as Hd'.
    { rewrite slice_lookup by lia. rewrite <- Hd. f_equal. lia. }
    apply (blank_lookup _ _ _ Hb) in Hc', Hd'.
    destruct Ht as (Hss & _ & _).
    pose proof (single_spaced_lookup _ _ _ _ Hss Hc Hd Hc'). congruence.
  - assert (is_Some (ft !! pred (length ft))) as [c Hc]
      by (apply lookup_lt_is_Some; unfold len in *; lia).
    assert (slice ft s (len ft) !! Z.to_nat (len ft - 1 - s) = Some c) as Hc'.
    { rewrite slice_lookup by lia. rewrite <- Hc. f_equal.
      unfold len in *. lia. }
    apply (blank_lookup _ _ _ Hb) in Hc'.
    pose proof (tight_last_lookup _ _ Ht Hc). congruence.
Qed.

Lemma window_chunk_emitted ft m cs s :
  ¬ blank (slice ft s (window_end ft cs s)) →
  window_chunk ft m cs s
  = [mkChunk (strip (slice ft s (window_end ft cs s)))
             (sorted (set_of (slice m s (window_end ft cs s))))].
Proof.
  intros H. apply strip_truthy in H. unfold window_chunk. by rewrite H.
Qed.

Lemma bind_singletons {A B} (f : A → list B) (g : A → B) (l : list A) :
  (∀ x, x ∈ l → f x = [g x]) → l ≫= f = g <$> l.
Proof.
  induction l as [|x l IH]; intros H; [done |].
  rewrite bind_cons, fmap_cons, H by left. simpl. f_equal.
  apply IH. intros y Hy. apply H. by right.
Qed.

(** C4, as the code has it. For [0 <= overlap < chunk_size] and a stream of
    length [L > 0], the loop returns (for every fuel above the number of
    windows). Its windows start at [0, step, 2*step, ...]: the [k]-th start
    is [k * step], for exactly the [k] with [k * step < L]; each window ends
    at [min(start + chunk_size, L)] ([window_end]), and the last one ends at
    [L] and yields a chunk. The returned list holds, in order, the chunk of
    every window that does not strip to the empty string ([window_chunk]);
    with [chunk_size >= 2] that is every window, so that the chunks and the
    starts correspond one to one. *)
Theorem window_offsets pgs cs ov :
  0 ≤ ov < cs → 0 < len (build_stream pgs).1 →
  ∃ starts : list Z,
    (∀ (k : nat) s,
       starts !! k = Some s ↔
       s = Z.of_nat k * (cs - ov) ∧ s < len (build_stream pgs).1) ∧
    (∀ fuel, (length starts < fuel)%nat →
       chunk_pages fuel pgs cs ov
       = Some (starts ≫=
                 window_chunk (build_stream pgs).1 (build_stream pgs).2 cs)) ∧
    (∃ s, last starts = Some s ∧
          window_end (build_stream pgs).1 cs s = len (build_stream pgs).1 ∧
          window_chunk (build_stream pgs).1 (build_stream pgs).2 cs s ≠ []) ∧
    (2 ≤ cs →
     ∀ fuel, (length starts < fuel)%nat →
       chunk_pages fuel pgs cs ov
       = Some ((λ s,
                  mkChunk
                    (strip (slice (build_stream pgs).1 s
                              (Z.min (s + cs) (len (build_stream pgs).1))))
                    (sorted (set_of
                       (slice (build_stream pgs).2 s
                          (Z.min (s + cs) (len (build_stream pgs).1))))))
               <$> starts)).
Proof.
  intros Hov HL.
  pose proof (build_stream_inv pgs) as [_ Htight _].
  set (ft := (build_stream pgs).1) in *. set (m := (build_stream pgs).2) in *.
  assert (tight ft) as Ht.
  { apply Htight. intros E. rewrite E in HL. done. }
  assert (0 < cs - ov) as Hstep by lia.
  destruct (window_count_spec (len ft) (cs - ov) Hstep) as [Hall Hstop];
    [lia |].
  set (n := window_count (len ft) (cs - ov)) in *.
  rewrite Forall_forall in Hall.
  assert (∀ k : nat, (k < n)%nat → Z.of_nat k * (cs - ov) < len ft) as Hin.
  { intros k Hk. apply Hall, elem_of_window_starts. exists k. split; [done | lia]. }
  assert (∀ fuel, (n < fuel)%nat →
    chunk_pages fuel pgs cs ov
    = Some (window_starts (cs - ov) 0 n ≫= window_chunk ft m cs)) as Hrun.
  { intros fuel Hfuel. by apply chunk_pages_run. }
  exists (window_starts (cs - ov) 0 n). rewrite length_window_starts.
  split_and!.
  - intros k s. destruct (decide (k < n)%nat) as [Hk | Hk].
    + rewrite window_starts_lookup by done. specialize (Hin k Hk).
      split; [intros [= <-]; lia | intros [-> _]; f_equal; lia].
    + rewrite lookup_ge_None_2 by (rewrite length_window_starts; lia).
      split; [done |]. intros [-> Hs]. nia.
  - exact Hrun.
  - assert (0 < n)%nat as Hn by (destruct n; [lia | lia]).
    exists (Z.of_nat (pred n) * (cs - ov)).
    assert (Z.of_nat (pred n) * (cs - ov) < len ft) as Hlast
      by (apply Hin; lia).
    assert (window_end ft cs (Z.of_nat (pred n) * (cs - ov)) = len ft)
      as Hend by (unfold window_end; nia).
    split_and!.
    + rewrite last_lookup, length_window_starts.
      rewrite window_starts_lookup by lia. f_equal; lia.
    + exact Hend.
    + rewrite window_chunk_emitted; [done |]. rewrite Hend.
      apply window_not_blank; [done | nia | lia | by right].
  - intros Hcs fuel Hfuel. rewrite Hrun by done. f_equal.
    apply bind_singletons. intros s Hs.
    apply elem_of_window_starts in Hs as (k & Hk & ->).
    specialize (Hin k Hk). rewrite Z.add_0_l.
    rewrite window_chunk_emitted; [done |].
    apply window_not_blank; unfold window_end; [done | nia | lia | lia].
Qed.

Lemma window_offsets_witness :
  ∃ starts : list Z,
    (∀ (k : nat) s,
       starts !! k = Some s ↔
       s = Z.of_nat k * (10 - 2) ∧ s < len (build_stream pages_hello).1) ∧
    (∀ fuel, (length starts < fuel)%nat →
       chunk_pages fuel pages_hello 10 2
       = Some (starts ≫=
                 window_chunk (build_stream pages_hello).1
                   (build_stream pages_hello).2 10)) ∧
    (∃ s, last starts = Some s ∧
          window_end (build_stream pages_hello).1 10 s
          = len (build_stream pages_hello).1 ∧
          window_chunk (build_stream pages_hello).1
            (build_stream pages_hello).2 10 s ≠ []) ∧
    (2 ≤ 10 →
     ∀ fuel, (length starts < fuel)%nat →
       chunk_pages fuel pages_hello 10 2
       = Some ((λ s,
                  mkChunk
                    (strip (slice (build_stream pages_hello).1 s
                              (Z.min (s + 10)
                                 (len (build_stream pages_hello).1))))
                    (sorted (set_of
                       (slice (build_stream pages_hello).2 s
                          (Z.min (s + 10)
                             (len (build_stream pages_hello).1))))))
               <$> starts)).
Proof.
  apply (window_offsets pages_hello 10 2).
  - lia.
  - by_running.
Defined.

(** With [chunk_size = 1] and [overlap = 0] the stream "a b" has three
    window starts below its length, [0], [1] and [2], and two chunks: the
    window at [1] holds the space alone and yields nothing. *)
Lemma window_offsets_counterexample :
  len (build_stream pages_ab).1 = 3 ∧
  window_starts (1 - 0) 0 (window_count 3 (1 - 0)) = [0; 1; 2] ∧
  chunk_pages 4 pages_ab 1 0
  = Some [mkChunk (lit "a") [1]; mkChunk (lit "b") [1]] ∧
  window_chunk (build_stream pages_ab).1 (build_stream pages_ab).2 1 1 = [].
Proof. vm_compute. auto. Qed.

(** C3, as the code has it. [chunk_pages] checks neither [chunk_size] nor
    [overlap] and raises nothing. When [overlap < chunk_size], whatever
    their signs, the loop returns a list of chunks; when the stream is empty
    it returns the empty list at once; and when [overlap >= chunk_size] on a
    non-empty stream the window never advances and the loop does not
    return, however much fuel it gets. *)
Theorem invalid_parameters pgs cs ov :
  (ov < cs →
   ∃ chunks, ∀ fuel,
     (window_count (len (build_stream pgs).1) (cs - ov) < fuel)%nat →
     chunk_pages fuel pgs cs ov = Some chunks) ∧
  ((build_stream pgs).1 = [] →
   ∀ fuel, chunk_pages (S fuel) pgs cs ov = Some []) ∧
  (cs ≤ ov → (build_stream pgs).1 ≠ [] →
   ∀ fuel, chunk_pages fuel pgs cs ov = None).
Proof.
  split_and!.
  - apply chunk_pages_returns.
  - intros E fuel. unfold chunk_pages.
    destruct (build_stream pgs) as [ft m]. simpl in E. subst ft. done.
  - intros Hov Hne fuel. unfold chunk_pages.
    destruct (build_stream pgs) as [ft m]. simpl in Hne.
    apply chunk_loop_stuck; [done |].
    destruct ft; [done |]. unfold len. simpl. lia.
Qed.

Lemma invalid_parameters_witness :
  (∃ chunks, ∀ fuel,
     (window_count (len (build_stream pages_hello).1) (0 - (-4)) < fuel)%nat →
     chunk_pages fuel pages_hello 0 (-4) = Some chunks) ∧
  (∀ fuel, chunk_pages (S fuel) pages_blank 5 5 = Some []) ∧
  (∀ fuel, chunk_pages fuel pages_hello 5 5 = None).
Proof.
  split_and!.
  - apply (invalid_parameters pages_hello 0 (-4)). lia.
  - apply (invalid_parameters pages_blank 5 5). by_running.
  - apply (invalid_parameters pages_hello 5 5); [lia |]. vm_compute. done.
Defined.

(** Three calls the specification wants rejected: [overlap = chunk_size] on a page
    of whitespace returns the empty list; [chunk_size = 0] returns the empty
    list; [overlap = chunk_size] on a page with text never returns. *)
Lemma invalid_parameters_counterexample :
  chunk_pages 1 pages_blank 5 5 = Some [] ∧
  chunk_pages 8 pages_hello 0 (-4) = Some [] ∧
  (∀ fuel, chunk_pages fuel pages_hello 5 5 = None).
Proof.
  split_and!; [by_running | by_running |].
  intros fuel. unfold chunk_pages.
  destruct (build_stream pages_hello) as [ft m] eqn:E.
  assert (len ft = 25) as Hlen.
  { replace ft with (build_stream pages_hello).1 by by rewrite E.
    by_running. }
  apply chunk_loop_stuck; lia.
Qed.

(** ** Decimal numerals *)

Lemma pretty_N_char_colon x : pretty_N_char x ≠ ":"%char.
Proof. unfold pretty_N_char. by repeat case_match. Qed.

Lemma pretty_N_go_colon_free x s :
  colon_free s → colon_free (pretty_N_go x s).
Proof.
  revert s. induction (N.lt_wf_0 x) as [x _ IH]; intros s Hs.
  destruct (decide (x = 0)%N) as [-> | Hx].
  - by rewrite pretty_N_go_0.
  - rewrite pretty_N_go_step by lia. apply IH.
    + apply N.div_lt; lia.
    + constructor; [apply pretty_N_char_colon | done].
Qed.

Lemma pretty_N_colon_free (x : N) : colon_free (pretty x).
Proof.
  unfold pretty, pretty_N. case_decide.
  - repeat constructor. done.
  - apply pretty_N_go_colon_free. constructor.
Qed.

Lemma pretty_Z_colon_free (x : Z) : colon_free (pretty x).
Proof.
  destruct x as [|p|p]; unfold pretty, pretty_Z.
  - repeat constructor. done.
  - apply pretty_N_colon_free.
  - constructor; [done | apply pretty_N_colon_free].
Qed.

Lemma N_of_ascii_inj : Inj (=) (=) N_of_ascii.
Proof.
  intros a b Hab.
  rewrite <- (ascii_N_embedding a), <- (ascii_N_embedding b). by rewrite Hab.
Qed.

Lemma lit_inj (s t : string) : lit s = lit t → s = t.
Proof.
  unfold lit. intros H.
  apply (list_fmap_eq_inj _ N_of_ascii_inj) in H.
  rewrite <- (string_of_list_ascii_of_string s),
          <- (string_of_list_ascii_of_string t). by rewrite H.
Qed.

Lemma str_of_int_inj (a b : Z) : str_of_int a = str_of_int b → a = b.
Proof. intros H. apply lit_inj in H. by apply (inj pretty) in H. Qed.

(** The numeral of an integer has no colon (code point 58). *)
Lemma str_of_int_no_colon (n : Z) : 58%N ∉ str_of_int n.
Proof.
  unfold str_of_int, lit. intros H.
  apply list_elem_of_fmap in H as (a & Ha & Hin).
  pose proof (pretty_Z_colon_free n) as Hfree. unfold colon_free in Hfree.
  rewrite Forall_forall in Hfree. apply (Hfree a Hin).
  rewrite <- (ascii_N_embedding a), <- Ha. reflexivity.
Qed.

(** Two texts that have no [c], each followed by [c], agree when the whole
    strings do. *)
Lemma app_sep_inj (c : N) (s1 s2 r1 r2 : str) :
  c ∉ s1 → c ∉ s2 → s1 ++ c :: r1 = s2 ++ c :: r2 → s1 = s2.
Proof.
  revert s2. induction s1 as [|x s1 IH]; intros [|y s2] H1 H2 E; simpl in E.
  - done.
  - injection E as -> _. exfalso. apply H2. left.
  - injection E as -> _. exfalso. apply H1. left.
  - injection E as -> E. f_equal. apply (IH s2); [| | done].
    + intros H. apply H1. by right.
    + intros H. apply H2. by right.
Qed.

(** An id determines its version. *)
Lemma record_id_version (did : str) (v1 v2 : Z) (i1 i2 : nat) :
  record_id did v1 i1 = record_id did v2 i2 → v1 = v2.
Proof.
  unfold record_id. intros E.
  apply app_inv_head, app_inv_head in E.
  change (lit "::chunk-") with (58%N :: lit ":chunk-") in E. simpl in E.
  apply app_sep_inj in E; [| apply str_of_int_no_colon..].
  by apply str_of_int_inj.
Qed.

(** ** [ingest_document] *)

Lemma chunk_loop_fuel_mono fuel fuel' ft m cs ov start chunks out :
  chunk_loop fuel ft m cs ov start chunks = Some out → (fuel ≤ fuel')%nat →
  chunk_loop fuel' ft m cs ov start chunks = Some out.
Proof.
  revert fuel' start chunks.
  induction fuel as [|fuel IH]; intros fuel' start chunks H Hle; [done |].
  destruct fuel' as [|fuel']; [lia |].
  rewrite chunk_loop_unfold in H |- *.
  destruct (start <? len ft); [| done]. apply IH; [done | lia].
Qed.

(** The result of [chunk_pages] does not depend on the fuel. *)
Lemma chunk_pages_fuel fuel1 fuel2 pgs cs ov out1 out2 :
  chunk_pages fuel1 pgs cs ov = Some out1 →
  chunk_pages fuel2 pgs cs ov = Some out2 → out1 = out2.
Proof.
  unfold chunk_pages. destruct (build_stream pgs) as [ft m]. intros H1 H2.
  apply chunk_loop_fuel_mono with (fuel' := (fuel1 `max` fuel2)%nat) in H1;
    [| lia].
  apply chunk_loop_fuel_mono with (fuel' := (fuel1 `max` fuel2)%nat) in H2;
    [| lia].
  congruence.
Qed.

(** A call that returns records has extracted pages and chunked them. *)
Lemma ingest_document_ok pf w cfg fuel path did v act records :
  ingest_document pf w cfg fuel path did v act = Some (Ok records) →
  ∃ pgs chunks,
    extract_pages pf w path = Ok pgs ∧
    chunk_pages fuel pgs (CHUNK_SIZE cfg) (CHUNK_OVERLAP cfg) = Some chunks ∧
    records = imap (make_record did v act (basename pf path)
                      (utcnow_isoformat w)) chunks.
Proof.
  unfold ingest_document. intros H.
  destruct (extract_pages pf w path) as [pgs | e]; [| done].
  destruct (chunk_pages fuel pgs _ _) as [chunks |] eqn:Hchunks; [| done].
  injection H as <-. exists pgs, chunks. auto.
Qed.

(** When extraction succeeds and the configured overlap is below the
    configured chunk size, the call returns a batch. *)
Lemma ingest_document_returns pf w cfg path did v act pgs :
  extract_pages pf w path = Ok pgs →
  CHUNK_OVERLAP cfg < CHUNK_SIZE cfg →
  ∃ records, ∀ fuel,
    (window_count (len (build_stream pgs).1)
       (CHUNK_SIZE cfg - CHUNK_OVERLAP cfg) < fuel)%nat →
    ingest_document pf w cfg fuel path did v act = Some (Ok records).
Proof.
  intros Hpgs Hov.
  destruct (chunk_pages_returns pgs _ _ Hov) as [chunks Hchunks].
  eexists. intros fuel Hfuel. unfold ingest_document.
  rewrite Hpgs, (Hchunks fuel Hfuel). reflexivity.
Qed.

Lemma make_record_ids did v act file_name time chunks :
  ids_in_chunk_order did v chunks
    (imap (make_record did v act file_name time) chunks).
Proof.
  split; [apply length_imap |].
  intros i r Hr. rewrite list_lookup_imap in Hr.
  destruct (chunks !! i) as [c |] eqn:Hc; [| done].
  injection Hr as <-. split; [done |]. by exists c.
Qed.

(** C2. Two calls of [ingest_document] for one [doc_id] and two different
    versions, whatever the files, clocks and flags of the two calls, return
    batches that share no id; and each batch follows the chunks that
    [chunk_pages] returns on the pages [extract_pages] returns for that
    call: one record per chunk, the record at index [i] with the id
    [doc_id::v<version>::chunk-<i>] and the text and pages of the [i]-th
    chunk. *)
Theorem version_ids_disjoint pf w1 w2 cfg1 cfg2 fuel1 fuel2 path1 path2
    did v1 v2 act1 act2 recs1 recs2 :
  v1 ≠ v2 →
  ingest_document pf w1 cfg1 fuel1 path1 did v1 act1 = Some (Ok recs1) →
  ingest_document pf w2 cfg2 fuel2 path2 did v2 act2 = Some (Ok recs2) →
  (∀ r1 r2, r1 ∈ recs1 → r2 ∈ recs2 → id r1 ≠ id r2) ∧
  (∃ pgs1 chunks1,
     extract_pages pf w1 path1 = Ok pgs1 ∧
     chunk_pages fuel1 pgs1 (CHUNK_SIZE cfg1) (CHUNK_OVERLAP cfg1)
     = Some chunks1 ∧
     ids_in_chunk_order did v1 chunks1 recs1) ∧
  (∃ pgs2 chunks2,
     extract_pages pf w2 path2 = Ok pgs2 ∧
     chunk_pages fuel2 pgs2 (CHUNK_SIZE cfg2) (CHUNK_OVERLAP cfg2)
     = Some chunks2 ∧
     ids_in_chunk_order did v2 chunks2 recs2).
Proof.
  intros Hv H1 H2.
  apply ingest_document_ok in H1 as (pgs1 & chunks1 & Hp1 & Hc1 & ->).
  apply ingest_document_ok in H2 as (pgs2 & chunks2 & Hp2 & Hc2 & ->).
  split_and!.
  - intros r1 r2 Hr1 Hr2 E.
    apply elem_of_lookup_imap in Hr1 as (i1 & c1 & -> & _).
    apply elem_of_lookup_imap in Hr2 as (i2 & c2 & -> & _).
    simpl in E. by apply record_id_version in E.
  - exists pgs1, chunks1. split_and!; [done | done | apply make_record_ids].
  - exists pgs2, chunks2. split_and!; [done | done | apply make_record_ids].
Qed.

Lemma version_ids_disjoint_witness :
  (∀ r1 r2, r1 ∈ batch_v1 → r2 ∈ batch_v2 → id r1 ≠ id r2) ∧
  (∃ pgs1 chunks1,
     extract_pages posix (txt_world hello_text time_1) (lit "docs/notes.txt")
     = Ok pgs1 ∧
     chunk_pages 5 pgs1 (CHUNK_SIZE config_10_2) (CHUNK_OVERLAP config_10_2)
     = Some chunks1 ∧
     ids_in_chunk_order (lit "apple_q2_report") 1 chunks1 batch_v1) ∧
  (∃ pgs2 chunks2,
     extract_pages posix (txt_world hello_text time_2) (lit "docs/notes.txt")
     = Ok pgs2 ∧
     chunk_pages 5 pgs2 (CHUNK_SIZE config_10_2) (CHUNK_OVERLAP config_10_2)
     = Some chunks2 ∧
     ids_in_chunk_order (lit "apple_q2_report") 2 chunks2 batch_v2).
Proof.
  apply (version_ids_disjoint posix
           (txt_world hello_text time_1) (txt_world hello_text time_2)
           config_10_2 config_10_2 5 5
           (lit "docs/notes.txt") (lit "docs/notes.txt")
           (lit "apple_q2_report") 1 2 true true).
  - lia.
  - by_running.
  - by_running.
Defined.

(** C5. Two calls of [ingest_document] with one file, [doc_id], [version]
    and [is_active], in two worlds (two moments) in which extraction gives
    the same pages, return batches of one length whose records agree, index
    by index, on [id], [chunk_text] and every metadata field but
    [ingested_at], which is each call's own clock reading: each record of
    the second batch is the record of the first with the second
    timestamp. *)
Theorem reingest_idempotent pf w1 w2 cfg fuel1 fuel2 path did v act
    recs1 recs2 :
  extract_pages pf w1 path = extract_pages pf w2 path →
  ingest_document pf w1 cfg fuel1 path did v act = Some (Ok recs1) →
  ingest_document pf w2 cfg fuel2 path did v act = Some (Ok recs2) →
  length recs1 = length recs2 ∧
  Forall2 same_but_time recs1 recs2 ∧
  recs2 = with_ingested_at (utcnow_isoformat w2) <$> recs1 ∧
  Forall (λ r, ingested_at (metadata r) = utcnow_isoformat w1) recs1 ∧
  Forall (λ r, ingested_at (metadata r) = utcnow_isoformat w2) recs2.
Proof.
  intros Hext H1 H2.
  apply ingest_document_ok in H1 as (pgs1 & chunks1 & Hp1 & Hc1 & ->).
  apply ingest_document_ok in H2 as (pgs2 & chunks2 & Hp2 & Hc2 & ->).
  assert (pgs2 = pgs1) as -> by congruence.
  assert (chunks2 = chunks1) as -> by (by eapply chunk_pages_fuel).
  split_and!.
  - by rewrite !length_imap.
  - apply Forall2_same_length_lookup. split; [by rewrite !length_imap |].
    intros i r1 r2 Hr1 Hr2. rewrite list_lookup_imap in Hr1, Hr2.
    destruct (chunks1 !! i) as [c |]; [| done].
    injection Hr1 as <-. injection Hr2 as <-. by repeat split.
  - apply list_eq. intros i.
    rewrite list_lookup_fmap, !list_lookup_imap.
    by destruct (chunks1 !! i).
  - apply Forall_forall. intros r Hr.
    by apply elem_of_lookup_imap in Hr as (i & c & -> & _).
  - apply Forall_forall. intros r Hr.
    by apply elem_of_lookup_imap in Hr as (i & c & -> & _).
Qed.

Lemma reingest_idempotent_witness :
  length (records_of (ingest_document posix (txt_world hello_text time_1)
                        config_10_2 5 (lit "docs/notes.txt")
                        (lit "apple_q2_report") 1 true))
  = length (records_of (ingest_document posix (txt_world hello_text time_2)
                          config_10_2 9 (lit "docs/notes.txt")
                          (lit "apple_q2_report") 1 true)) ∧
  Forall2 same_but_time
    (records_of (ingest_document posix (txt_world hello_text time_1)
                   config_10_2 5 (lit "docs/notes.txt")
                   (lit "apple_q2_report") 1 true))
    (records_of (ingest_document posix (txt_world hello_text time_2)
                   config_10_2 9 (lit "docs/notes.txt")
                   (lit "apple_q2_report") 1 true)) ∧
  records_of (ingest_document posix (txt_world hello_text time_2)
                config_10_2 9 (lit "docs/notes.txt")
                (lit "apple_q2_report") 1 true)
  = with_ingested_at (utcnow_isoformat (txt_world hello_text time_2))
      <$> records_of (ingest_document posix (txt_world hello_text time_1)
                        config_10_2 5 (lit "docs/notes.txt")
                        (lit "apple_q2_report") 1 true) ∧
  Forall (λ r, ingested_at (metadata r)
               = utcnow_isoformat (txt_world hello_text time_1))
    (records_of (ingest_document posix (txt_world hello_text time_1)
                   config_10_2 5 (lit "docs/notes.txt")
                   (lit "apple_q2_report") 1 true)) ∧
  Forall (λ r, ingested_at (metadata r)
               = utcnow_isoformat (txt_world hello_text time_2))
    (records_of (ingest_document posix (txt_world hello_text time_2)
                   config_10_2 9 (lit "docs/notes.txt")
                   (lit "apple_q2_report") 1 true)).
Proof.
  apply (reingest_idempotent posix
           (txt_world hello_text time_1) (txt_world hello_text time_2)
           config_10_2 5 9 (lit "docs/notes.txt")
           (lit "apple_q2_report") 1 true).
  - reflexivity.
  - by_running.
  - by_running.
Defined.

(** ** Unsupported file types *)

Lemma existsb_str_eqb (x : str) (l : list str) :
  existsb (str_eqb x) l = true ↔ x ∈ l.
Proof.
  rewrite existsb_exists. unfold str_eqb. split.
  - intros (y & Hy & E). apply bool_decide_eq_true in E as ->.
    by apply list_elem_of_In.
  - intros H. exists x. split; [by apply list_elem_of_In |].
    by apply bool_decide_eq_true.
Qed.

(** C9, as the code has it. The extension is compared after lower-casing.
    When the lower-cased extension of the path is none of [.pdf], [.txt],
    [.md], [extract_pages] raises [ValueError("Unsupported file type: " +
    ext)] and [ingest_document] ends with that exception, returning no
    record: in every world (no file is read), under every configuration and
    with any fuel, even none (the chunking loop is not entered). *)
Theorem unsupported_extension pf w cfg fuel path did v act :
  lower pf (splitext pf path).2 ∉ [lit ".pdf"; lit ".txt"; lit ".md"] →
  extract_pages pf w path
  = Raise (ValueError (lit "Unsupported file type: "
                         ++ lower pf (splitext pf path).2)) ∧
  ingest_document pf w cfg fuel path did v act
  = Some (Raise (ValueError (lit "Unsupported file type: "
                               ++ lower pf (splitext pf path).2))).
Proof.
  intros Hext.
  assert (extract_pages pf w path
    = Raise (ValueError (lit "Unsupported file type: "
                           ++ lower pf (splitext pf path).2))) as E.
  { unfold extract_pages.
    destruct (str_eqb _ (lit ".pdf")) eqn:Hpdf.
    - exfalso. apply Hext. unfold str_eqb in Hpdf.
      apply bool_decide_eq_true in Hpdf. rewrite Hpdf. left.
    - destruct (existsb _ _) eqn:Htxt; [| done].
      exfalso. apply Hext. apply existsb_str_eqb in Htxt. by right. }
  split; [exact E |]. unfold ingest_document. by rewrite E.
Qed.

Lemma unsupported_extension_witness :
  extract_pages posix (txt_world hello_text time_1) (lit "docs/report.docx")
  = Raise (ValueError (lit "Unsupported file type: "
                         ++ lower posix
                              (splitext posix (lit "docs/report.docx")).2)) ∧
  ingest_document posix (txt_world hello_text time_1) config_stuck 0
    (lit "docs/report.docx") (lit "apple_q2_report") 1 true
  = Some (Raise (ValueError (lit "Unsupported file type: "
                               ++ lower posix
                                    (splitext posix
                                       (lit "docs/report.docx")).2))).
Proof.
  apply (unsupported_extension posix (txt_world hello_text time_1)
           config_stuck 0 (lit "docs/report.docx")
           (lit "apple_q2_report") 1 true).
  apply (bool_decide_unpack _). vm_compute. exact I.
Defined.

(** The extension [.PDF] is none of [.pdf], [.txt], [.md], and the file is
    read as a PDF all the same. *)
Lemma unsupported_extension_counterexample :
  (splitext posix (lit "docs/REPORT.PDF")).2 = lit ".PDF" ∧
  (lit ".PDF" ∉ [lit ".pdf"; lit ".txt"; lit ".md"]) ∧
  ingest_document posix (pdf_world [Ok (Some (lit "Hello"))] time_1)
    config_10_2 2 (lit "docs/REPORT.PDF") (lit "report") 1 true
  = Some (Ok [ {| id := lit "report::v1::chunk-0";
                  record_text := lit "Hello";
                  metadata := {| doc_id := lit "report";
                                 doc_version := 1;
                                 is_active := true;
                                 source := lit "REPORT.PDF";
                                 pages_str := lit "1";
                                 ingested_at := time_1 |} |} ]).
Proof.
  split_and!; [by_running | | by_running].
  apply (bool_decide_unpack _). vm_compute. exact I.
Qed.

(** ** Sample runs *)

Example clean_text_page_one : clean_text (text page_one) = lit "one two".
Proof. by_running. Qed.

Example build_stream_hello :
  build_stream pages_hello
  = (lit "Hello world. Goodbye now.",
     replicate 12 1 ++ replicate 13 2).
Proof. by_running. Qed.

(** The example of the specification, [chunk_size = 10], [overlap = 2]:
    windows at 0, 8, 16 and 24. *)
Example chunk_pages_hello :
  chunk_pages 5 pages_hello 10 2
  = Some [mkChunk (lit "Hello worl") [1]; mkChunk (lit "rld. Goodb") [1; 2];
          mkChunk (lit "dbye now.") [2]; mkChunk (lit ".") [2]].
Proof. by_running. Qed.

(** Pages without text are left out and the others keep their numbers. *)
Example extract_pages_pdf :
  extract_pages posix
    (pdf_world [Ok (Some (lit "Hello")); Ok None; Ok (Some (lit "  "));
                Ok (Some (lit "bye"))] time_1)
    (lit "docs/Apple_Q24.pdf")
  = Ok [mkPage 1 (lit "Hello"); mkPage 4 (lit "bye")].
Proof. by_running. Qed.

Example ingest_document_pdf :
  (λ r, (id r, pages_str (metadata r), source (metadata r)))
    <$> records_of
          (ingest_document posix
             (pdf_world [Ok (Some (lit "Hello")); Ok None;
                         Ok (Some (lit "  ")); Ok (Some (lit "bye"))] time_1)
             config_10_2 3 (lit "docs/Apple_Q24.pdf")
             (lit "apple_q2_report") 1 true)
  = [(lit "apple_q2_report::v1::chunk-0", lit "1,4", lit "Apple_Q24.pdf");
     (lit "apple_q2_report::v1::chunk-1", lit "4", lit "Apple_Q24.pdf")].
Proof. by_running. Qed.

(** * Further properties *)

(** ** The normaliser *)

Lemma sub_spaces_plain in_run text : spaces_plain (sub_spaces in_run text).
Proof.
  revert in_run. induction text as [|c text IH]; intros in_run; simpl.
  - constructor.
  - destruct (isspace c) eqn:Hc.
    + destruct in_run; [apply IH |]. constructor; [done | apply IH].
    + constructor; [congruence | apply IH].
Qed.

Lemma spaces_plain_strip (s : str) : spaces_plain s → spaces_plain (strip s).
Proof.
  intros H. destruct (strip_split s) as (pre & post & E & _ & _).
  rewrite E in H. apply Forall_app in H as [_ H].
  by apply Forall_app in H as [H _].
Qed.

Lemma clean_text_plain text : spaces_plain (clean_text text).
Proof. apply spaces_plain_strip, sub_spaces_plain. Qed.

(** A text in canonical form goes through the substitution unchanged. *)
Lemma sub_spaces_fixed in_run (s : str) :
  single_spaced s → spaces_plain s → (in_run = true → starts_tight s) →
  sub_spaces in_run s = s.
Proof.
  revert in_run. induction s as [|c s IH]; intros in_run Hs Hp Hrun; [done |].
  destruct Hs as [Hc Hs]. apply Forall_cons in Hp as [Hplain Hp]. simpl.
  destruct (isspace c) eqn:Ec.
  - destruct in_run; [specialize (Hrun eq_refl); simpl in Hrun; congruence |].
    rewrite Hplain by done. f_equal. apply IH; auto.
  - f_equal. apply IH; [done | done | done].
Qed.

Lemma strip_fixed (s : str) :
  starts_tight s → starts_tight (reverse s) → strip s = s.
Proof.
  intros H1 H2. unfold strip, rstrip.
  assert (∀ t : str, starts_tight t → lstrip t = t) as Hl.
  { intros [|c t] Ht; [done |]. simpl in *. by rewrite Ht. }
  rewrite (Hl s H1), (Hl _ H2). apply reverse_involutive.
Qed.

Lemma clean_text_fixed (s : str) :
  tight s → spaces_plain s → clean_text s = s.
Proof.
  intros (Hs & H1 & H2) Hp. unfold clean_text.
  rewrite sub_spaces_fixed by done. by apply strip_fixed.
Qed.

Lemma tight_nil : tight [].
Proof. by repeat split. Qed.

Lemma clean_text_tight_all text : tight (clean_text text).
Proof.
  destruct (clean_text text) eqn:E; [apply tight_nil |].
  rewrite <- E. apply clean_text_tight. by rewrite E.
Qed.

(** X1. Normalising twice is normalising once. *)
Theorem clean_text_idempotent text :
  clean_text (clean_text text) = clean_text text.
Proof.
  apply clean_text_fixed; [apply clean_text_tight_all | apply clean_text_plain].
Qed.

(** X2. The normalised text is in canonical form: its only whitespace is
    the plain space, no two whitespace characters stand side by side, and
    it neither starts nor ends with whitespace. *)
Theorem clean_text_canonical text :
  (∀ c, c ∈ clean_text text → isspace c = true → c = SPACE) ∧
  (∀ (i : nat) c d,
     clean_text text !! i = Some c → clean_text text !! S i = Some d →
     isspace c = true → isspace d = false) ∧
  (∀ c, head (clean_text text) = Some c → isspace c = false) ∧
  (∀ c, last (clean_text text) = Some c → isspace c = false).
Proof.
  pose proof (clean_text_tight_all text) as (Hs & Hh & Hl).
  pose proof (clean_text_plain text) as Hp.
  split_and!.
  - intros c Hc. unfold spaces_plain in Hp. rewrite Forall_forall in Hp.
    by apply Hp.
  - intros i c d. by apply single_spaced_lookup.
  - intros c Hc. destruct (clean_text text); simplify_eq/=. done.
  - intros c Hc. rewrite <- (reverse_involutive (clean_text text)) in Hc.
    rewrite last_reverse in Hc.
    destruct (reverse (clean_text text)); simplify_eq/=. done.
Qed.

Lemma visible_blank (s : str) : blank s → visible s = [].
Proof.
  unfold visible. induction 1 as [|c s Hc _ IH]; [done |].
  rewrite filter_cons. case_decide; [congruence | done].
Qed.

Lemma visible_app (s t : str) : visible (s ++ t) = visible s ++ visible t.
Proof. apply filter_app. Qed.

Lemma visible_sub_spaces in_run text :
  visible (sub_spaces in_run text) = visible text.
Proof.
  revert in_run. unfold visible.
  induction text as [|c text IH]; intros in_run; simpl; [done |].
  destruct (isspace c) eqn:Hc.
  - rewrite (filter_cons _ c). case_decide; [congruence |].
    destruct in_run; [apply IH |].
    rewrite filter_cons. case_decide; [done | apply IH].
  - rewrite !filter_cons. case_decide; [| congruence]. f_equal. apply IH.
Qed.

Lemma visible_strip (s : str) : visible (strip s) = visible s.
Proof.
  destruct (strip_split s) as (pre & post & E & Hpre & Hpost).
  rewrite E at 2. rewrite !visible_app.
  rewrite (visible_blank pre), (visible_blank post) by done.
  by rewrite app_nil_r.
Qed.

(** X3. Normalisation touches whitespace only: the characters that are not
    whitespace come out as they went in, all of them and in order. *)
Theorem clean_text_keeps_visible text :
  visible (clean_text text) = visible text.
Proof. unfold clean_text. by rewrite visible_strip, visible_sub_spaces. Qed.

Lemma blank_sub_spaces in_run text :
  blank (sub_spaces in_run text) ↔ blank text.
Proof.
  revert in_run. unfold blank.
  induction text as [|c text IH]; intros in_run; simpl; [done |].
  destruct (isspace c) eqn:Hc.
  - destruct in_run.
    + rewrite IH, Forall_cons. tauto.
    + rewrite !Forall_cons, IH. by intuition.
  - rewrite !Forall_cons, IH. by intuition.
Qed.

(** X4. A text normalises to the empty string exactly when it holds nothing
    but whitespace. *)
Theorem clean_text_empty_iff text : clean_text text = [] ↔ blank text.
Proof. unfold clean_text. by rewrite strip_nil, blank_sub_spaces. Qed.

(** ** PDF extraction *)

Lemma result_bind_ok {A B} (a : A) (k : A → result B) :
  (Ok a ≫= k) = k a.
Proof. reflexivity. Qed.

Lemma result_bind_raise {A B} (e : exn) (k : A → result B) :
  (Raise e ≫= k) = Raise e.
Proof. reflexivity. Qed.

(** A run of the page loop that returns has appended, in order, one page
    for each reader page with text, numbered by its position. *)
Lemma pdf_pages_loop_ok i rp acc out :
  pdf_pages_loop i rp acc = Ok out →
  ∃ new,
    out = acc ++ new ∧
    StronglySorted Z.lt (page <$> new) ∧
    (∀ k e, rp !! k ≠ Some (Raise e)) ∧
    (∀ p, p ∈ new ↔
       ∃ k : nat, rp !! k = Some (Ok (Some (text p))) ∧
                  page p = i + Z.of_nat k + 1 ∧ ¬ blank (text p)).
Proof.
  revert i acc. induction rp as [|x rp IH]; intros i acc H; simpl in H.
  - injection H as <-. exists []. split_and!.
    + by rewrite app_nil_r.
    + constructor.
    + intros k e. by rewrite lookup_nil.
    + intros p. rewrite elem_of_nil. split; [done |].
      intros (k & Hk & _). by rewrite lookup_nil in Hk.
  - destruct x as [extracted | e]; [| by rewrite result_bind_raise in H].
    rewrite result_bind_ok in H.
    destruct (truthy (strip (default [] extracted))) eqn:Ht.
    + apply IH in H as (new & -> & Hs & Hok & Hmem).
      apply strip_truthy in Ht.
      destruct extracted as [t |];
        [| exfalso; apply Ht; constructor]. simpl in Ht.
      exists (mkPage (i + 1) t :: new). split_and!.
      * by rewrite <- app_assoc.
      * rewrite fmap_cons. constructor; [done |]. simpl.
        apply Forall_forall. intros n Hn.
        apply list_elem_of_fmap in Hn as (p & -> & Hp).
        apply Hmem in Hp as (k & _ & -> & _). lia.
      * intros [|k] e'; simpl; [done | apply Hok].
      * intros p. rewrite elem_of_cons, Hmem. split.
        -- intros [-> | (k & Hk & Hp & Hb)].
           ++ exists 0%nat. simpl. split_and!; [done | lia | done].
           ++ exists (S k). simpl. split_and!; [done | lia | done].
        -- intros ([|k] & Hk & Hp & Hb); simpl in Hk.
           ++ left. injection Hk as ->. destruct p as [n t']. simpl in *.
              f_equal. lia.
           ++ right. exists k. split_and!; [done | lia | done].
    + apply IH in H as (new & -> & Hs & Hok & Hmem).
      apply truthy_false, strip_nil in Ht.
      exists new. split_and!; [done | done | |].
      * intros [|k] e'; simpl; [done | apply Hok].
      * intros p. rewrite Hmem. split.
        -- intros (k & Hk & Hp & Hb). exists (S k). simpl.
           split_and!; [done | lia | done].
        -- intros ([|k] & Hk & Hp & Hb); simpl in Hk.
           ++ injection Hk as ->. done.
           ++ exists k. split_and!; [done | lia | done].
Qed.

(** When no page fails, the loop returns. *)
Lemma pdf_pages_loop_returns i rp acc :
  (∀ k e, rp !! k ≠ Some (Raise e)) → ∃ out, pdf_pages_loop i rp acc = Ok out.
Proof.
  revert i acc. induction rp as [|x rp IH]; intros i acc Hok; simpl.
  - by eexists.
  - destruct x as [extracted | e]; [| by destruct (Hok 0%nat e)].
    rewrite result_bind_ok.
    assert (∀ k e, rp !! k ≠ Some (Raise e)) as Hok'
      by (intros k e; apply (Hok (S k) e)).
    destruct (truthy _); by apply IH.
Qed.

(** The first page that fails ends the loop with its exception. *)
Lemma pdf_pages_loop_raise i rp acc (k : nat) e :
  rp !! k = Some (Raise e) →
  (∀ j : nat, (j < k)%nat → ∃ t, rp !! j = Some (Ok t)) →
  pdf_pages_loop i rp acc = Raise e.
Proof.
  revert i acc k. induction rp as [|x rp IH]; intros i acc k Hk Hbefore.
  - by rewrite lookup_nil in Hk.
  - destruct k as [|k]; simpl in Hk.
    + injection Hk as ->. reflexivity.
    + destruct (Hbefore 0%nat) as [t Ht]; [lia |]. simpl in Ht.
      injection Ht as ->. simpl.
      assert (∀ j : nat, (j < k)%nat → ∃ t, rp !! j = Some (Ok t)) as Hb'.
      { intros j Hj. apply (Hbefore (S j)). lia. }
      destruct (truthy _); by apply (IH _ _ k).
Qed.

(** X5. When the document opens and no page fails to decode,
    [extract_pages_from_pdf] returns; and whenever it returns, the page
    numbers of its result are strictly ascending, and a page is in the
    result exactly when it is the reader page at some position [k] (counted
    from 0) with its text as extracted, not stripped, with number [k + 1],
    and that text is not all whitespace. So pages without text are left out
    and the others keep the numbers they have in the document. *)
Theorem pdf_pages_numbered w path :
  (∀ rp, PdfReader w path = Ok rp → (∀ k e, rp !! k ≠ Some (Raise e)) →
     ∃ pgs, extract_pages_from_pdf w path = Ok pgs) ∧
  (∀ pgs, extract_pages_from_pdf w path = Ok pgs →
     ∃ rp, PdfReader w path = Ok rp ∧
       StronglySorted Z.lt (page <$> pgs) ∧
       ∀ p, p ∈ pgs ↔
         ∃ k : nat, rp !! k = Some (Ok (Some (text p))) ∧
                    page p = Z.of_nat k + 1 ∧ ¬ blank (text p)).
Proof.
  unfold extract_pages_from_pdf. split.
  - intros rp -> Hok. rewrite result_bind_ok.
    by apply pdf_pages_loop_returns.
  - intros pgs H. destruct (PdfReader w path) as [rp | e]; [| done].
    rewrite result_bind_ok in H.
    apply pdf_pages_loop_ok in H as (new & -> & Hs & _ & Hmem).
    exists rp. split_and!; [done | done |].
    intros p. rewrite Hmem. by setoid_rewrite Z.add_0_l.
Qed.

Lemma pdf_pages_numbered_witness :
  ∃ rp,
    PdfReader (pdf_world [Ok (Some (lit "Hello")); Ok None;
                          Ok (Some (lit "  ")); Ok (Some (lit "bye"))] time_1)
      (lit "docs/Apple_Q24.pdf") = Ok rp ∧
    StronglySorted Z.lt
      (page <$> [mkPage 1 (lit "Hello"); mkPage 4 (lit "bye")]) ∧
    ∀ p, p ∈ [mkPage 1 (lit "Hello"); mkPage 4 (lit "bye")] ↔
      ∃ k : nat, rp !! k = Some (Ok (Some (text p))) ∧
                 page p = Z.of_nat k + 1 ∧ ¬ blank (text p).
Proof.
  apply (pdf_pages_numbered
           (pdf_world [Ok (Some (lit "Hello")); Ok None;
                       Ok (Some (lit "  ")); Ok (Some (lit "bye"))] time_1)
           (lit "docs/Apple_Q24.pdf")).
  by_running.
Defined.

(** X6. A PDF whose opening fails, or one of whose pages fails to decode,
    ends [ingest_document] with that exception (of the first failing page):
    under every configuration and with any fuel, so nothing is chunked and
    no record of the earlier pages is returned. *)
Theorem pdf_failure_aborts pf w cfg fuel path did v act e :
  lower pf (splitext pf path).2 = lit ".pdf" →
  PdfReader w path = Raise e ∨
  (∃ rp (k : nat),
     PdfReader w path = Ok rp ∧ rp !! k = Some (Raise e) ∧
     ∀ j : nat, (j < k)%nat → ∃ t, rp !! j = Some (Ok t)) →
  extract_pages pf w path = Raise e ∧
  ingest_document pf w cfg fuel path did v act = Some (Raise e).
Proof.
  intros Hext Hfail.
  assert (extract_pages pf w path = Raise e) as E.
  { unfold extract_pages. rewrite Hext.
    replace (str_eqb (lit ".pdf") (lit ".pdf")) with true by by_running.
    unfold extract_pages_from_pdf.
    destruct Hfail as [-> | (rp & k & -> & Hk & Hbefore)]; [done |].
    rewrite result_bind_ok. by apply (pdf_pages_loop_raise _ _ _ k). }
  split; [exact E |]. unfold ingest_document. by rewrite E.
Qed.

Lemma pdf_failure_aborts_witness :
  extract_pages posix
    (pdf_world [Ok (Some (lit "Hello"));
                Raise (LibraryError (lit "PdfReadError"));
                Ok (Some (lit "bye"))] time_1)
    (lit "docs/Apple_Q24.PDF")
  = Raise (LibraryError (lit "PdfReadError")) ∧
  ingest_document posix
    (pdf_world [Ok (Some (lit "Hello"));
                Raise (LibraryError (lit "PdfReadError"));
                Ok (Some (lit "bye"))] time_1)
    config_stuck 0 (lit "docs/Apple_Q24.PDF") (lit "apple_q2_report") 1 true
  = Some (Raise (LibraryError (lit "PdfReadError"))).
Proof.
  apply (pdf_failure_aborts posix
           (pdf_world [Ok (Some (lit "Hello"));
                       Raise (LibraryError (lit "PdfReadError"));
                       Ok (Some (lit "bye"))] time_1)
           config_stuck 0 (lit "docs/Apple_Q24.PDF")
           (lit "apple_q2_report") 1 true).
  - by_running.
  - right. eexists _, 1%nat. split_and!; [reflexivity | reflexivity |].
    intros [|j] Hj; [by eexists | lia].
Defined.

(** ** Documents without text *)

Lemma contributes_false_iff p : contributes p = false ↔ blank (text p).
Proof.
  unfold contributes. by rewrite truthy_false, clean_text_empty_iff.
Qed.

Lemma build_stream_blank pgs :
  Forall (λ p, blank (text p)) pgs → build_stream pgs = ([], []).
Proof.
  intros H. rewrite build_stream_contributing. unfold contributing.
  replace (filter (λ p, contributes p = true) pgs) with (@nil Page); [done |].
  symmetry. induction H as [|p pgs Hp _ IH]; [done |].
  rewrite filter_cons. apply contributes_false_iff in Hp.
  case_decide; [congruence | done].
Qed.

(** X7. A document that extracts to pages without text (a text file of
    whitespace, a PDF none of whose pages has text) is ingested to the empty
    batch, not to an error: under every configuration, also one whose
    overlap is not below the chunk size, and at the first turn of the
    loop. *)
Theorem textless_document_empty_batch pf w cfg fuel path did v act pgs :
  extract_pages pf w path = Ok pgs →
  Forall (λ p, blank (text p)) pgs →
  ingest_document pf w cfg (S fuel) path did v act = Some (Ok []).
Proof.
  intros Hpgs Hblank. unfold ingest_document, chunk_pages.
  rewrite Hpgs, (build_stream_blank pgs Hblank). reflexivity.
Qed.

Lemma textless_document_empty_batch_witness :
  ingest_document posix (txt_world (lit "   ") time_1) config_stuck 1
    (lit "docs/empty.md") (lit "apple_q2_report") 1 true
  = Some (Ok []).
Proof.
  apply (textless_document_empty_batch posix (txt_world (lit "   ") time_1)
           config_stuck 0 (lit "docs/empty.md") (lit "apple_q2_report")
           1 true [mkPage 1 (lit "   ")]).
  - by_running.
  - repeat constructor.
Defined.

(** ** What the extractor hands to the chunker *)

(** X8. Whatever document [extract_pages] accepts, the pages it returns
    have strictly ascending page numbers, all at least 1; hence the
    character map built from them never decreases and holds positive page
    numbers only. *)
Theorem extracted_pages_ascending pf w path pgs :
  extract_pages pf w path = Ok pgs →
  StronglySorted Z.lt (page <$> pgs) ∧
  Forall (λ p, 1 ≤ page p) pgs ∧
  StronglySorted Z.le (build_stream pgs).2 ∧
  Forall (λ n, 1 ≤ n) (build_stream pgs).2.
Proof.
  intros H.
  assert (StronglySorted Z.lt (page <$> pgs) ∧ Forall (λ p, 1 ≤ page p) pgs)
    as [Hs Hpos].
  { unfold extract_pages in H. destruct (str_eqb _ (lit ".pdf")).
    - unfold extract_pages_from_pdf in H.
      destruct (PdfReader w path) as [rp | e]; [| done].
      rewrite result_bind_ok in H.
      apply pdf_pages_loop_ok in H as (new & -> & Hs & _ & Hmem).
      split; [done |]. apply Forall_forall. intros p Hp.
      apply Hmem in Hp as (k & _ & -> & _). lia.
    - destruct (existsb _ _); [| done].
      unfold extract_pages_from_txt in H.
      destruct (read_text w path) as [content | e]; [| done].
      rewrite result_bind_ok in H. injection H as <-.
      split; repeat constructor; simpl; lia. }
  split_and!; [done | done | |].
  - apply build_stream_sorted.
    clear Hpos. induction Hs as [|n ns _ IH Hn]; constructor; [done |].
    eapply Forall_impl; [exact Hn |]. simpl. lia.
  - apply Forall_forall. intros n Hn.
    destruct (build_stream_inv pgs) as [_ _ Hsrc].
    destruct (Hsrc n Hn) as (p & Hp & <- & _).
    rewrite Forall_forall in Hpos. by apply Hpos.
Qed.

Lemma extracted_pages_ascending_witness :
  StronglySorted Z.lt
    (page <$> [mkPage 1 (lit "Hello"); mkPage 4 (lit "bye")]) ∧
  Forall (λ p, 1 ≤ page p) [mkPage 1 (lit "Hello"); mkPage 4 (lit "bye")] ∧
  StronglySorted Z.le
    (build_stream [mkPage 1 (lit "Hello"); mkPage 4 (lit "bye")]).2 ∧
  Forall (λ n, 1 ≤ n)
    (build_stream [mkPage 1 (lit "Hello"); mkPage 4 (lit "bye")]).2.
Proof.
  apply (extracted_pages_ascending posix
           (pdf_world [Ok (Some (lit "Hello")); Ok None;
                       Ok (Some (lit "  ")); Ok (Some (lit "bye"))] time_1)
           (lit "docs/Apple_Q24.pdf")).
  by_running.
Defined.

(** ** Coverage: no text and no page is lost *)

(** A page with text has a character of its own in the stream, mapped to
    its number. *)
Lemma stream_offset_of_page pgs p :
  p ∈ pgs → contributes p = true →
  ∃ (o : nat) ch,
    (build_stream pgs).1 !! o = Some ch ∧ isspace ch = false ∧
    (build_stream pgs).2 !! o = Some (page p).
Proof.
  induction pgs as [|q pgs IH] using rev_ind; intros Hin Hp.
  - by apply elem_of_nil in Hin.
  - rewrite build_stream_snoc. apply elem_of_app in Hin as [Hin | Hin].
    + destruct (IH Hin Hp) as (o & ch & Hft & Hch & Hm).
      destruct (add_page_grows (build_stream pgs) q) as (ft1 & m1 & ->).
      exists o, ch. cbn [fst snd].
      split_and!; [by apply lookup_app_l_Some | done
                  | by apply lookup_app_l_Some].
    + apply list_elem_of_singleton in Hin as <-.
      pose proof (build_stream_inv pgs) as [Hlen _ _].
      destruct (build_stream pgs) as [ft m]. cbn [fst snd] in *.
      assert (clean_text (text p) ≠ []) as Hne by by apply truthy_true.
      pose proof (clean_text_tight _ Hne) as (_ & Hhead & _).
      destruct (clean_text (text p)) as [|ch rest] eqn:E; [done |].
      simpl in Hhead. destruct ft as [|c ft].
      * destruct m; [| done]. rewrite add_page_first, E by done.
        exists 0%nat, ch. by split_and!.
      * rewrite add_page_next, E by done.
        exists (S (length (c :: ft))), ch. cbn [fst snd]. split_and!.
        -- rewrite lookup_app_r by lia.
           by replace (S (length (c :: ft)) - length (c :: ft))%nat
             with 1%nat by lia.
        -- done.
        -- rewrite <- Hlen, lookup_app_r by lia.
           by replace (S (length m) - length m)%nat with 1%nat by lia.
Qed.

(** With [0 <= overlap < chunk_size] every offset of the stream lies in the
    window that starts at the multiple of the step just below it. *)
Lemma covering_window (L cs ov o : Z) :
  0 ≤ ov < cs → 0 ≤ o < L →
  ∃ k : nat,
    Z.of_nat k * (cs - ov) ≤ o < Z.min (Z.of_nat k * (cs - ov) + cs) L ∧
    (k < window_count L (cs - ov))%nat.
Proof.
  intros Hov Ho. assert (0 < cs - ov) as Hstep by lia.
  assert (0 ≤ o / (cs - ov)) by (apply Z.div_pos; lia).
  pose proof (Z.mul_div_le o (cs - ov) Hstep).
  pose proof (Z.mul_succ_div_gt o (cs - ov) Hstep).
  destruct (window_count_spec L (cs - ov) Hstep) as [_ Hstop]; [lia |].
  exists (Z.to_nat (o / (cs - ov))). split; [nia | nia].
Qed.

Lemma elem_of_strip (s : str) ch :
  ch ∈ s → isspace ch = false → ch ∈ strip s.
Proof.
  intros Hin Hch. destruct (strip_split s) as (pre & post & E & Hpre & Hpost).
  rewrite E, !elem_of_app in Hin. destruct Hin as [Hin | [Hin | Hin]].
  - unfold blank in Hpre. rewrite Forall_forall in Hpre.
    specialize (Hpre _ Hin). congruence.
  - done.
  - unfold blank in Hpost. rewrite Forall_forall in Hpost.
    specialize (Hpost _ Hin). congruence.
Qed.

(** X9. With [0 <= overlap < chunk_size] no text is lost: the call returns,
    and every character of the stream that is not whitespace lies in the
    window of a returned chunk, is part of that chunk's text, and the page
    the map gives for its offset is among that chunk's pages. *)
Theorem stream_text_covered pgs cs ov (o : nat) ch :
  0 ≤ ov < cs →
  (build_stream pgs).1 !! o = Some ch → isspace ch = false →
  ∃ chunks,
    (∀ fuel,
       (window_count (len (build_stream pgs).1) (cs - ov) < fuel)%nat →
       chunk_pages fuel pgs cs ov = Some chunks) ∧
    ∃ c start,
      c ∈ chunks ∧
      start ≤ Z.of_nat o < Z.min (start + cs) (len (build_stream pgs).1) ∧
      chunk_text c
      = strip (slice (build_stream pgs).1 start
                 (Z.min (start + cs) (len (build_stream pgs).1))) ∧
      ch ∈ chunk_text c ∧
      ∀ n, (build_stream pgs).2 !! o = Some n → n ∈ pages c.
Proof.
  intros Hov Hft Hch.
  pose proof (build_stream_inv pgs) as [Hlen _ _].
  set (ft := (build_stream pgs).1) in *. set (m := (build_stream pgs).2) in *.
  assert (Z.of_nat o < len ft) as Ho
    by (apply lookup_lt_Some in Hft; unfold len; lia).
  destruct (covering_window (len ft) cs ov (Z.of_nat o)) as (k & Hk & Hcount);
    [lia | lia |].
  set (start := Z.of_nat k * (cs - ov)) in *.
  assert (0 ≤ start) by (unfold start; nia).
  assert (ch ∈ slice ft start (Z.min (start + cs) (len ft))) as Hin.
  { apply elem_of_slice_range; [lia | lia |].
    exists (Z.of_nat o). split; [lia |]. by rewrite Nat2Z.id. }
  assert (¬ blank (slice ft start (window_end ft cs start))) as Hnb.
  { intros Hb. unfold blank in Hb. rewrite Forall_forall in Hb.
    specialize (Hb ch Hin). congruence. }
  eexists. split.
  { intros fuel Hfuel. apply chunk_pages_run; [lia | done]. }
  fold ft m.
  exists (mkChunk (strip (slice ft start (window_end ft cs start)))
            (sorted (set_of (slice m start (window_end ft cs start))))),
    start.
  split_and!.
  - apply list_elem_of_bind. exists start. split.
    + rewrite window_chunk_emitted by done. left.
    + apply elem_of_window_starts. exists k. split; [done | lia].
  - lia.
  - lia.
  - reflexivity.
  - simpl. by apply elem_of_strip.
  - intros n Hn. simpl. apply elem_of_page_set.
    apply elem_of_slice_range; [unfold window_end; lia
                               | unfold window_end, len in *; lia |].
    exists (Z.of_nat o). unfold window_end. split; [lia |].
    by rewrite Nat2Z.id.
Qed.

Lemma stream_text_covered_witness :
  ∃ chunks,
    (∀ fuel,
       (window_count (len (build_stream pages_hello).1) (10 - 2) < fuel)%nat →
       chunk_pages fuel pages_hello 10 2 = Some chunks) ∧
    ∃ c start,
      c ∈ chunks ∧
      start ≤ Z.of_nat 13
      < Z.min (start + 10) (len (build_stream pages_hello).1) ∧
      chunk_text c
      = strip (slice (build_stream pages_hello).1 start
                 (Z.min (start + 10) (len (build_stream pages_hello).1))) ∧
      71%N ∈ chunk_text c ∧
      ∀ n, (build_stream pages_hello).2 !! 13%nat = Some n → n ∈ pages c.
Proof.
  apply (stream_text_covered pages_hello 10 2 13 71%N).
  - lia.
  - by_running.
  - by_running.
Defined.

(** X10. With [0 <= overlap < chunk_size] no page is lost: every input page
    whose text normalises to a non-empty string is among the pages of some
    returned chunk. *)
Theorem every_page_cited pgs cs ov p :
  0 ≤ ov < cs → p ∈ pgs → clean_text (text p) ≠ [] →
  ∃ chunks,
    (∀ fuel,
       (window_count (len (build_stream pgs).1) (cs - ov) < fuel)%nat →
       chunk_pages fuel pgs cs ov = Some chunks) ∧
    ∃ c, c ∈ chunks ∧ page p ∈ pages c.
Proof.
  intros Hov Hin Hne.
  destruct (stream_offset_of_page pgs p Hin) as (o & ch & Hft & Hch & Hm);
    [by apply truthy_true |].
  pose proof (build_stream_inv pgs) as [Hlen _ _].
  set (ft := (build_stream pgs).1) in *. set (m := (build_stream pgs).2) in *.
  assert (Z.of_nat o < len ft) as Ho
    by (apply lookup_lt_Some in Hft; unfold len; lia).
  destruct (covering_window (len ft) cs ov (Z.of_nat o)) as (k & Hk & Hcount);
    [lia | lia |].
  set (start := Z.of_nat k * (cs - ov)) in *.
  assert (0 ≤ start) by (unfold start; nia).
  assert (ch ∈ slice ft start (Z.min (start + cs) (len ft))) as Hch_in.
  { apply elem_of_slice_range; [lia | lia |].
    exists (Z.of_nat o). split; [lia |]. by rewrite Nat2Z.id. }
  assert (¬ blank (slice ft start (window_end ft cs start))) as Hnb.
  { intros Hb. unfold blank in Hb. rewrite Forall_forall in Hb.
    specialize (Hb ch Hch_in). congruence. }
  eexists. split.
  { intros fuel Hfuel. apply chunk_pages_run; [lia | done]. }
  fold ft m.
  exists (mkChunk (strip (slice ft start (window_end ft cs start)))
            (sorted (set_of (slice m start (window_end ft cs start))))).
  split.
  - apply list_elem_of_bind. exists start. split.
    + rewrite window_chunk_emitted by done. left.
    + apply elem_of_window_starts. exists k. split; [done | lia].
  - simpl. apply elem_of_page_set.
    apply elem_of_slice_range; [unfold window_end; lia
                               | unfold window_end, len in *; lia |].
    exists (Z.of_nat o). unfold window_end. split; [lia |].
    by rewrite Nat2Z.id.
Qed.

Lemma every_page_cited_witness :
  ∃ chunks,
    (∀ fuel,
       (window_count (len (build_stream pages_gap).1) (10 - 2) < fuel)%nat →
       chunk_pages fuel pages_gap 10 2 = Some chunks) ∧
    ∃ c, c ∈ chunks ∧ page page_three ∈ pages c.
Proof.
  apply (every_page_cited pages_gap 10 2 page_three).
  - lia.
  - at_index 2%nat.
  - apply (bool_decide_unpack _). vm_compute. exact I.
Defined.

(** ** Size and form of a chunk *)

Lemma length_strip_le (s : str) : (length (strip s) ≤ length s)%nat.
Proof.
  destruct (strip_split s) as (pre & post & E & _ & _).
  rewrite E at 2. rewrite !length_app. lia.
Qed.

(** X11. With a positive [chunk_size] above [overlap], the text of every
    returned chunk has at least one character and at most [chunk_size], and
    never more than the stream has. *)
Theorem chunk_text_bounded fuel pgs cs ov chunks :
  0 < cs → ov < cs →
  chunk_pages fuel pgs cs ov = Some chunks →
  Forall (λ c, 0 < len (chunk_text c) ≤ cs ∧
               len (chunk_text c) ≤ len (build_stream pgs).1) chunks.
Proof.
  intros Hcs Hov H. apply Forall_forall. intros c Hc.
  destruct (chunk_pages_elem _ _ _ _ _ _ H Hc) as (k & Hk & Hw).
  apply elem_of_window_chunk in Hw as [-> Hnb]. simpl.
  set (ft := (build_stream pgs).1) in *.
  set (start := Z.of_nat k * (cs - ov)) in *.
  assert (0 ≤ start) by (unfold start; nia).
  pose proof (length_strip_le (slice ft start (window_end ft cs start))).
  pose proof (length_slice_range ft start (window_end ft cs start)) as Hl.
  unfold window_end in *. rewrite <- strip_nil in Hnb.
  assert (length (strip (slice ft start (Z.min (start + cs) (len ft)))) ≠ 0%nat)
    by by rewrite length_zero_iff_nil.
  unfold len in *. lia.
Qed.

Lemma chunk_text_bounded_witness :
  Forall (λ c, 0 < len (chunk_text c) ≤ 10 ∧
               len (chunk_text c) ≤ len (build_stream pages_hello).1)
    [mkChunk (lit "Hello worl") [1]; mkChunk (lit "rld. Goodb") [1; 2];
     mkChunk (lit "dbye now.") [2]; mkChunk (lit ".") [2]].
Proof.
  apply (chunk_text_bounded 5 pages_hello 10 2); [lia | lia | by_running].
Defined.

Lemma single_spaced_slice (s : str) (a b : Z) :
  single_spaced s → single_spaced (slice s a b).
Proof.
  intros H. unfold slice.
  set (i := Z.to_nat (adjust_index (len s) a)).
  set (n := Z.to_nat (adjust_index (len s) b - adjust_index (len s) a)).
  rewrite <- (take_drop i s) in H. apply single_spaced_app_inv in H as [_ H].
  rewrite <- (take_drop n (drop i s)) in H.
  by apply single_spaced_app_inv in H as [H _].
Qed.

Lemma spaces_plain_slice (s : str) (a b : Z) :
  spaces_plain s → spaces_plain (slice s a b).
Proof.
  unfold spaces_plain. rewrite !Forall_forall. intros H c Hc.
  apply H. by eapply elem_of_slice.
Qed.

Lemma build_stream_plain pgs : spaces_plain (build_stream pgs).1.
Proof.
  induction pgs as [|p pgs IH] using rev_ind; [constructor |].
  rewrite build_stream_snoc.
  destruct (build_stream pgs) as [ft m]. cbn [fst snd] in *.
  destruct (contributes p) eqn:Hp; [| by rewrite add_page_skip].
  destruct ft as [|c ft].
  - rewrite add_page_first by done. apply clean_text_plain.
  - rewrite add_page_next by done. cbn [fst].
    apply Forall_app. split; [done |].
    apply Forall_app. split; [by repeat constructor | apply clean_text_plain].
Qed.

Lemma build_stream_single_spaced pgs : single_spaced (build_stream pgs).1.
Proof.
  pose proof (build_stream_inv pgs) as [_ Ht _].
  destruct (build_stream pgs).1 eqn:E; [done |].
  by apply Ht.
Qed.

(** X12. The text of every returned chunk is itself in normal form:
    normalising it again changes nothing. This holds for all values of
    [chunk_size] and [overlap]. *)
Theorem chunk_text_normalised fuel pgs cs ov chunks :
  chunk_pages fuel pgs cs ov = Some chunks →
  Forall (λ c, clean_text (chunk_text c) = chunk_text c) chunks.
Proof.
  intros H. apply Forall_forall. intros c Hc.
  destruct (chunk_pages_elem _ _ _ _ _ _ H Hc) as (k & _ & Hw).
  apply elem_of_window_chunk in Hw as [-> Hnb]. simpl.
  apply clean_text_fixed.
  - apply strip_tight; [| by rewrite strip_nil].
    apply single_spaced_slice, build_stream_single_spaced.
  - apply spaces_plain_strip, spaces_plain_slice, build_stream_plain.
Qed.

Lemma chunk_text_normalised_witness :
  Forall (λ c, clean_text (chunk_text c) = chunk_text c)
    [mkChunk (lit "one two th") [1; 3]; mkChunk (lit "three") [3]].
Proof.
  apply (chunk_text_normalised 4 pages_gap 10 2). by_running.
Defined.

(** ** The pages of a chunk form a run *)

(** X13. When the input pages come in ascending order of page number, the
    pages of a chunk are a run without gaps among the pages that have
    text: if a chunk cites [a] and [b], it cites every input page with text
    whose number lies between them. *)
Theorem chunk_pages_contiguous fuel pgs cs ov chunks c a b q :
  StronglySorted Z.le (page <$> pgs) →
  0 < cs → ov < cs →
  chunk_pages fuel pgs cs ov = Some chunks → c ∈ chunks →
  a ∈ pages c → b ∈ pages c →
  q ∈ pgs → clean_text (text q) ≠ [] → a < page q < b →
  page q ∈ pages c.
Proof.
  intros Hsorted Hcs Hov H Hc Ha Hb Hq Hne Hbetween.
  destruct (chunk_pages_elem _ _ _ _ _ _ H Hc) as (k & Hk & Hw).
  apply elem_of_window_chunk in Hw as [-> _]. simpl in *.
  pose proof (build_stream_inv pgs) as [Hlen _ _].
  pose proof (build_stream_sorted pgs Hsorted) as Hm.
  destruct (stream_offset_of_page pgs q Hq) as (o & ch & _ & _ & Ho);
    [by apply truthy_true |].
  set (ft := (build_stream pgs).1) in *. set (m := (build_stream pgs).2) in *.
  set (start := Z.of_nat k * (cs - ov)) in *.
  assert (0 ≤ start) by (unfold start; nia).
  unfold window_end in *.
  assert (len m = len ft) as Hlen' by (unfold len; lia).
  rewrite elem_of_page_set in Ha, Hb |- *.
  rewrite elem_of_slice_range in Ha, Hb |- * by lia.
  destruct Ha as (i & Hi & Hia). destruct Hb as (j & Hj & Hjb).
  exists (Z.of_nat o). rewrite Nat2Z.id. split; [| done].
  assert (¬ (o ≤ Z.to_nat i)%nat) as Hlow.
  { intros Hle. pose proof (StronglySorted_le_lookup m _ _ _ _ Hm Hle Ho Hia).
    lia. }
  assert (¬ (Z.to_nat j ≤ o)%nat) as Hhigh.
  { intros Hle. pose proof (StronglySorted_le_lookup m _ _ _ _ Hm Hle Hjb Ho).
    lia. }
  lia.
Qed.

Lemma chunk_pages_contiguous_witness : 2 ∈ [1; 2; 3].
Proof.
  apply (chunk_pages_contiguous 3
           [mkPage 1 (lit "ab"); mkPage 2 (lit "cd"); mkPage 3 (lit "ef")]
           20 5
           [mkChunk (lit "ab cd ef") [1; 2; 3]]
           (mkChunk (lit "ab cd ef") [1; 2; 3]) 1 3 (mkPage 2 (lit "cd"))).
  - simpl. repeat constructor; lia.
  - lia.
  - lia.
  - by_running.
  - at_index 0%nat.
  - at_index 0%nat.
  - at_index 2%nat.
  - at_index 1%nat.
  - apply (bool_decide_unpack _). vm_compute. exact I.
  - simpl. lia.
Defined.

(** ** Record ids and page lists *)

(** What holds of [s] and is kept by putting a digit in front holds of the
    digits written before [s]. *)
Lemma pretty_N_go_keeps (P : string → Prop) :
  (∀ x s, P s → P (String (pretty_N_char x) s)) →
  ∀ x s, P s → P (pretty_N_go x s).
Proof.
  intros Hstep x. induction (N.lt_wf_0 x) as [x _ IH]; intros s Hs.
  destruct (decide (x = 0)%N) as [-> | Hx].
  - by rewrite pretty_N_go_0.
  - rewrite pretty_N_go_step by lia. apply IH; [apply N.div_lt; lia |].
    by apply Hstep.
Qed.

Lemma pretty_N_char_numeral x : numeral_char (N_of_ascii (pretty_N_char x)).
Proof.
  unfold pretty_N_char, numeral_char.
  repeat case_match; right; simpl; lia.
Qed.

Lemma pretty_N_numeral (x : N) :
  Forall (λ a, numeral_char (N_of_ascii a)) (list_ascii_of_string (pretty x))
  ∧ pretty x ≠ ""%string.
Proof.
  unfold pretty, pretty_N. case_decide as Hx.
  - split; [| done]. constructor; [| constructor]. right. simpl. lia.
  - split.
    + apply (pretty_N_go_keeps
               (λ s, Forall (λ a, numeral_char (N_of_ascii a))
                       (list_ascii_of_string s))); [| constructor].
      intros y s Hs. constructor; [apply pretty_N_char_numeral | done].
    + rewrite pretty_N_go_step by lia.
      by apply (pretty_N_go_keeps (λ s, s ≠ ""%string)).
Qed.

(** The numeral of an integer is not empty and is made of digits and the
    minus sign. *)
Lemma str_of_int_numeral (n : Z) :
  str_of_int n ≠ [] ∧ Forall numeral_char (str_of_int n).
Proof.
  assert (∀ s : string, s ≠ ""%string → lit s ≠ []) as Hne.
  { intros [|a s] Hs; [done |]. done. }
  unfold str_of_int. destruct n as [|p|p]; unfold pretty, pretty_Z.
  - split; [done |]. constructor; [| constructor]. right. simpl. lia.
  - destruct (pretty_N_numeral (N.pos p)) as [Hall Hnon]. split.
    + by apply Hne.
    + unfold lit. by apply Forall_fmap.
  - destruct (pretty_N_numeral (N.pos p)) as [Hall _]. split; [done |].
    unfold lit. apply Forall_fmap. simpl.
    constructor; [by left | done].
Qed.

Lemma not_numeral_char (c : N) (n : Z) :
  ¬ numeral_char c → c ∉ str_of_int n.
Proof.
  intros Hc Hin. destruct (str_of_int_numeral n) as [_ Hall].
  rewrite Forall_forall in Hall. by apply Hc, Hall.
Qed.

(** Two texts, each followed by [c] and a rest without [c], agree part by
    part when the whole strings do. *)
Lemma app_sep_inj_r (c : N) (s1 s2 r1 r2 : str) :
  c ∉ r1 → c ∉ r2 → s1 ++ c :: r1 = s2 ++ c :: r2 → s1 = s2 ∧ r1 = r2.
Proof.
  intros H1 H2 E. apply (f_equal reverse) in E.
  rewrite !reverse_app, !reverse_cons, <- !app_assoc in E. simpl in E.
  assert (reverse r1 = reverse r2) as Hr.
  { eapply (app_sep_inj c); [| | exact E]; by rewrite elem_of_reverse. }
  rewrite Hr in E. apply app_inv_head in E. injection E as E.
  split; [| by apply (inj reverse)]. by apply (inj reverse).
Qed.

Lemma record_id_shape (d : str) (v : Z) (i : nat) :
  record_id d v i
  = ((d ++ [58%N]) ++ 58%N :: (118%N :: str_of_int v) ++ [58%N])
      ++ 58%N :: (lit "chunk-" ++ str_of_int (Z.of_nat i)).
Proof.
  unfold record_id.
  change (lit "::chunk-") with (58%N :: 58%N :: lit "chunk-").
  change (lit "::v") with [58%N; 58%N; 118%N].
  rewrite <- !app_assoc. simpl. rewrite <- !app_assoc. reflexivity.
Qed.

(** X14. The id scheme never collides: two ids are equal only for the same
    [doc_id], the same version and the same chunk index, whatever the
    characters of the [doc_id]s (they may hold colons, digits or the text
    "::v" themselves). *)
Theorem record_id_injective (d1 d2 : str) (v1 v2 : Z) (i1 i2 : nat) :
  record_id d1 v1 i1 = record_id d2 v2 i2 → d1 = d2 ∧ v1 = v2 ∧ i1 = i2.
Proof.
  rewrite !record_id_shape. intros E.
  assert (∀ n, 58%N ∉ lit "chunk-" ++ str_of_int n) as Htail.
  { intros n. rewrite elem_of_app. intros [H | H].
    - revert H. apply (bool_decide_unpack _). vm_compute. exact I.
    - revert H. apply not_numeral_char. unfold numeral_char. lia. }
  assert (∀ n, 58%N ∉ (118%N :: str_of_int n)) as Hmid.
  { intros n. rewrite elem_of_cons. intros [H | H]; [done |].
    revert H. apply not_numeral_char. unfold numeral_char. lia. }
  apply app_sep_inj_r in E as [Ehead Etail]; [| apply Htail..].
  apply app_inv_head, str_of_int_inj, Nat2Z.inj in Etail.
  rewrite !(app_comm_cons _ _ 58%N), !app_assoc in Ehead.
  apply app_inj_tail in Ehead as [Ehead _].
  apply app_sep_inj_r in Ehead as [Ed Ev]; [| apply Hmid..].
  apply app_inj_tail in Ed as [Ed _]. injection Ev as Ev.
  apply str_of_int_inj in Ev. done.
Qed.

Lemma record_id_injective_witness :
  lit "a::v1" = lit "a::v1" ∧ 2 = 2 ∧ 0%nat = 0%nat.
Proof.
  apply (record_id_injective (lit "a::v1") (lit "a::v1") 2 2 0 0).
  reflexivity.
Defined.

Lemma record_id_index (d : str) (v : Z) (i j : nat) :
  record_id d v i = record_id d v j → i = j.
Proof.
  unfold record_id. intros E.
  do 4 apply app_inv_head in E. by apply str_of_int_inj, Nat2Z.inj in E.
Qed.

(** X15. Within one batch of [ingest_document] no two records share an id,
    and the batch has one record per chunk. *)
Theorem batch_ids_distinct pf w cfg fuel path did v act records :
  ingest_document pf w cfg fuel path did v act = Some (Ok records) →
  NoDup (id <$> records) ∧
  ∃ pgs chunks,
    extract_pages pf w path = Ok pgs ∧
    chunk_pages fuel pgs (CHUNK_SIZE cfg) (CHUNK_OVERLAP cfg) = Some chunks ∧
    length records = length chunks.
Proof.
  intros H. apply ingest_document_ok in H as (pgs & chunks & Hp & Hc & ->).
  split.
  - apply NoDup_alt. intros i j x Hi Hj.
    rewrite list_lookup_fmap, list_lookup_imap in Hi, Hj.
    destruct (chunks !! i) as [ci |]; [| done].
    destruct (chunks !! j) as [cj |]; [| done].
    simpl in Hi, Hj. injection Hi as Hi. injection Hj as Hj.
    rewrite <- Hj in Hi. by apply record_id_index in Hi.
  - exists pgs, chunks. split_and!; [done | done | apply length_imap].
Qed.

Lemma batch_ids_distinct_witness :
  NoDup (id <$> records_of
                  (ingest_document posix (txt_world hello_text time_1)
                     config_10_2 5 (lit "docs/notes.txt")
                     (lit "apple_q2_report") 1 true)) ∧
  ∃ pgs chunks,
    extract_pages posix (txt_world hello_text time_1) (lit "docs/notes.txt")
    = Ok pgs ∧
    chunk_pages 5 pgs (CHUNK_SIZE config_10_2) (CHUNK_OVERLAP config_10_2)
    = Some chunks ∧
    length (records_of
              (ingest_document posix (txt_world hello_text time_1)
                 config_10_2 5 (lit "docs/notes.txt")
                 (lit "apple_q2_report") 1 true))
    = length chunks.
Proof.
  apply (batch_ids_distinct posix (txt_world hello_text time_1) config_10_2
           5 (lit "docs/notes.txt") (lit "apple_q2_report") 1 true).
  by_running.
Defined.

Lemma join_numerals_nonempty (n : Z) (ns : list Z) :
  join (lit ",") (str_of_int <$> n :: ns) ≠ [].
Proof.
  destruct (str_of_int_numeral n) as [Hne _].
  destruct ns as [|n' ns]; simpl; [done |].
  intros E. by apply app_eq_nil in E as [E _].
Qed.

Lemma comma_not_in_numeral (n : Z) : 44%N ∉ str_of_int n.
Proof. apply not_numeral_char. unfold numeral_char. lia. Qed.

(** The comma-joined numerals determine the list of integers. *)
Lemma join_numerals_inj (l1 l2 : list Z) :
  join (lit ",") (str_of_int <$> l1) = join (lit ",") (str_of_int <$> l2) →
  l1 = l2.
Proof.
  revert l2. induction l1 as [|x l1 IH]; intros [|y l2] E.
  - done.
  - symmetry in E. by apply join_numerals_nonempty in E.
  - by apply join_numerals_nonempty in E.
  - destruct l1 as [|x' l1], l2 as [|y' l2].
    + simpl in E. by apply str_of_int_inj in E as ->.
    + exfalso. apply (comma_not_in_numeral x).
      change (str_of_int <$> [x]) with [str_of_int x] in E. simpl in E.
      rewrite E. change (str_of_int <$> y :: y' :: l2)
        with (str_of_int y :: (str_of_int <$> y' :: l2)).
      simpl. rewrite elem_of_app. right. left.
    + exfalso. apply (comma_not_in_numeral y).
      change (str_of_int <$> [y]) with [str_of_int y] in E. simpl in E.
      rewrite <- E. change (str_of_int <$> x :: x' :: l1)
        with (str_of_int x :: (str_of_int <$> x' :: l1)).
      simpl. rewrite elem_of_app. right. left.
    + change (str_of_int <$> x :: x' :: l1)
        with (str_of_int x :: (str_of_int <$> x' :: l1)) in E.
      change (str_of_int <$> y :: y' :: l2)
        with (str_of_int y :: (str_of_int <$> y' :: l2)) in E.
      assert (∀ (p : list N) q r,
        join (lit ",") (p :: q :: r)
        = p ++ 44%N :: join (lit ",") (q :: r)) as Hjoin by done.
      rewrite !fmap_cons, !Hjoin in E. rewrite <- !fmap_cons in E.
      pose proof E as E'.
      apply app_sep_inj in E'; [| apply comma_not_in_numeral..].
      rewrite E' in E. apply app_inv_head in E. injection E as E.
      apply str_of_int_inj in E' as ->. f_equal. by apply IH.
Qed.

(** X16. The [pages] metadata loses nothing: two records whose comma-joined
    page strings are equal were built from chunks with the same page list,
    whatever the rest of the records. *)
Theorem pages_metadata_determines_pages
    did1 did2 v1 v2 act1 act2 file1 file2 time1 time2 i1 i2 c1 c2 :
  pages_str (metadata (make_record did1 v1 act1 file1 time1 i1 c1))
  = pages_str (metadata (make_record did2 v2 act2 file2 time2 i2 c2)) →
  pages c1 = pages c2.
Proof. simpl. apply join_numerals_inj. Qed.

Lemma pages_metadata_determines_pages_witness :
  pages (mkChunk (lit "rld. Goodb") [1; 2])
  = pages (mkChunk (lit "other text") [1; 2]).
Proof.
  apply (pages_metadata_determines_pages
           (lit "a") (lit "b") 1 2 true false (lit "a.pdf") (lit "b.pdf")
           time_1 time_2 0 7).
  by_running.
Defined.

(** ** Records *)

Lemma chunk_nonempty fuel pgs cs ov chunks c :
  chunk_pages fuel pgs cs ov = Some chunks → c ∈ chunks →
  chunk_text c ≠ [] ∧ pages c ≠ [] ∧
  ∀ n, n ∈ pages c → n ∈ (build_stream pgs).2.
Proof.
  intros H Hc.
  destruct (chunk_pages_elem _ _ _ _ _ _ H Hc) as (k & _ & Hw).
  apply elem_of_window_chunk in Hw as [-> Hnb]. simpl.
  pose proof (build_stream_inv pgs) as [Hlen _ _].
  split_and!.
  - by rewrite strip_nil.
  - apply page_set_nonempty. apply slice_not_blank_nonempty in Hnb.
    intros E. apply Hnb, length_zero_iff_nil.
    rewrite (length_slice_same _ (build_stream pgs).2) by done. by rewrite E.
  - intros n Hn. by apply elem_of_page_set, elem_of_slice in Hn.
Qed.

(** X17. No record of [ingest_document] is empty: each has a non-empty
    text and a non-empty [pages] string. *)
Theorem records_never_empty pf w cfg fuel path did v act records :
  ingest_document pf w cfg fuel path did v act = Some (Ok records) →
  Forall (λ r, record_text r ≠ [] ∧ pages_str (metadata r) ≠ []) records.
Proof.
  intros H. apply ingest_document_ok in H as (pgs & chunks & _ & Hc & ->).
  apply Forall_forall. intros r Hr.
  apply elem_of_lookup_imap in Hr as (i & c & -> & Hi).
  apply list_elem_of_lookup_2 in Hi.
  destruct (chunk_nonempty _ _ _ _ _ _ Hc Hi) as (Ht & Hp & _).
  split; [done |]. simpl.
  destruct (pages c) as [|n ns]; [done |]. apply join_numerals_nonempty.
Qed.

Lemma records_never_empty_witness :
  Forall (λ r, record_text r ≠ [] ∧ pages_str (metadata r) ≠ [])
    (records_of (ingest_document posix (txt_world hello_text time_1)
                   config_10_2 5 (lit "docs/notes.txt")
                   (lit "apple_q2_report") 1 true)).
Proof.
  apply (records_never_empty posix (txt_world hello_text time_1) config_10_2
           5 (lit "docs/notes.txt") (lit "apple_q2_report") 1 true).
  by_running.
Defined.

(** X18. A text file is one page: every record of the ingestion of a
    [.txt] or [.md] file (in any letter case) has the [pages] string "1",
    and its [source] is the base name of the path. *)
Theorem text_file_records_cite_page_1 pf w cfg fuel path did v act records :
  lower pf (splitext pf path).2 ∈ [lit ".txt"; lit ".md"] →
  ingest_document pf w cfg fuel path did v act = Some (Ok records) →
  Forall (λ r, pages_str (metadata r) = lit "1" ∧
               source (metadata r) = basename pf path) records.
Proof.
  intros Hext H.
  apply ingest_document_ok in H as (pgs & chunks & Hp & Hc & ->).
  assert (∃ content, pgs = [mkPage 1 content]) as [content ->].
  { unfold extract_pages in Hp.
    destruct (str_eqb _ (lit ".pdf")) eqn:Hpdf.
    - exfalso. unfold str_eqb in Hpdf. apply bool_decide_eq_true in Hpdf.
      rewrite Hpdf in Hext. revert Hext.
      apply (bool_decide_unpack _). vm_compute. exact I.
    - apply existsb_str_eqb in Hext. rewrite Hext in Hp.
      unfold extract_pages_from_txt in Hp.
      destruct (read_text w path) as [content | e]; [| done].
      rewrite result_bind_ok in Hp. injection Hp as <-. by exists content. }
  apply Forall_forall. intros r Hr.
  apply elem_of_lookup_imap in Hr as (i & c & -> & Hi).
  apply list_elem_of_lookup_2 in Hi. split; [| done]. simpl.
  destruct (chunk_pages_elem _ _ _ _ _ _ Hc Hi) as (k & _ & Hw).
  destruct (chunk_nonempty _ _ _ _ _ _ Hc Hi) as (_ & Hne & _).
  apply elem_of_window_chunk in Hw as [-> _]. simpl in *.
  assert (∀ n, n ∈ (build_stream [mkPage 1 content]).2 → n = 1) as Hone.
  { intros n Hn.
    destruct (build_stream_inv [mkPage 1 content]) as [_ _ Hinv].
    destruct (Hinv n Hn) as (p & Hp' & <- & _).
    by apply list_elem_of_singleton in Hp' as ->. }
  set (win := slice (build_stream [mkPage 1 content]).2 _ _) in *.
  assert (∀ n, n ∈ win → n = 1) as Hwin
    by (intros n Hn; apply Hone; by eapply elem_of_slice).
  rewrite (page_set_unique win [1]); [done | apply strictly_sorted_1 |].
  intros n. rewrite list_elem_of_singleton. split; [| apply Hwin].
  intros ->. destruct win as [|x win']; [done |].
  rewrite (Hwin x) by left. left.
Qed.

Lemma text_file_records_cite_page_1_witness :
  Forall (λ r, pages_str (metadata r) = lit "1" ∧
               source (metadata r) = basename posix (lit "docs/notes.TXT"))
    (records_of (ingest_document posix (txt_world hello_text time_1)
                   config_10_2 5 (lit "docs/notes.TXT")
                   (lit "apple_q2_report") 1 true)).
Proof.
  apply (text_file_records_cite_page_1 posix (txt_world hello_text time_1)
           config_10_2 5 (lit "docs/notes.TXT") (lit "apple_q2_report")
           1 true).
  - apply (bool_decide_unpack _). vm_compute. exact I.
  - by_running.
Defined.

(** ** The number of chunks *)

Lemma length_bind_le {A B} (f : A → list B) (l : list A) :
  (∀ x, length (f x) ≤ 1)%nat → (length (l ≫= f) ≤ length l)%nat.
Proof.
  intros Hf. induction l as [|x l IH]; [done |].
  rewrite bind_cons, length_app. simpl. specialize (Hf x). lia.
Qed.

(** X19. With [overlap < chunk_size] the call returns at most one chunk per
    multiple of the step below the length of the stream, that is at most
    [ceil(L / step)] chunks; with a positive step that is at most one per
    character. *)
Theorem chunk_count_bounded fuel pgs cs ov chunks :
  ov < cs →
  chunk_pages fuel pgs cs ov = Some chunks →
  (length chunks ≤ window_count (len (build_stream pgs).1) (cs - ov))%nat ∧
  Z.of_nat (window_count (len (build_stream pgs).1) (cs - ov))
  = (len (build_stream pgs).1 + (cs - ov) - 1) / (cs - ov) ∧
  Z.of_nat (length chunks) ≤ len (build_stream pgs).1.
Proof.
  intros Hov H. assert (0 < cs - ov) as Hstep by lia.
  apply chunk_pages_trace in H as (n & _ & -> & Hall & Hstop).
  rewrite Z.mul_comm in Hstop.
  assert (n = window_count (len (build_stream pgs).1) (cs - ov)) as <-.
  { apply window_count_unique; [done | done | lia]. }
  assert (length (window_starts (cs - ov) 0 n
                    ≫= window_chunk (build_stream pgs).1
                         (build_stream pgs).2 cs) ≤ n)%nat as Hle.
  { rewrite <- (length_window_starts (cs - ov) 0 n) at 2.
    apply length_bind_le. intros s. unfold window_chunk.
    destruct (truthy _); simpl; lia. }
  split_and!; [done | |].
  - assert (n = window_count (len (build_stream pgs).1) (cs - ov)) as Hn
      by (apply window_count_unique; [done | done | lia]).
    rewrite Hn at 1. unfold window_count. rewrite Z2Nat.id; [done |].
    apply Z.div_pos; unfold len; lia.
  - destruct n as [|n]; [simpl in *; unfold len; lia |].
    rewrite Forall_forall in Hall.
    assert (0 + Z.of_nat n * (cs - ov) < len (build_stream pgs).1)
      by (apply Hall, elem_of_window_starts; exists n; split; [lia | done]).
    nia.
Qed.

Lemma chunk_count_bounded_witness :
  (length [mkChunk (lit "a") [1%Z]; mkChunk (lit "b") [1%Z]]
   ≤ window_count (len (build_stream pages_ab).1) (1 - 0))%nat ∧
  Z.of_nat (window_count (len (build_stream pages_ab).1) (1 - 0))
  = (len (build_stream pages_ab).1 + (1 - 0) - 1) / (1 - 0) ∧
  Z.of_nat (length [mkChunk (lit "a") [1]; mkChunk (lit "b") [1]])
  ≤ len (build_stream pages_ab).1.
Proof.
  apply (chunk_count_bounded 4 pages_ab 1 0); [lia | by_running].
Defined.
